(** * gomisc/maybe: the optional type, its type-erased bridge and its adapters

    A shallow embedding of [maybe/maybe.go] and the properties of the
    package stated against it.

    Layout:
    - [Go]      : the fragment of the Go run time the package relies on
                  (errors, panics, dynamic values, fixed-width integers,
                  float widening);
    - [maybe]   : the package itself, function by function, with the
                  store of variables its pointer methods act on;
    - [samples] : codecs, scanners and client code used in statements
                  and examples;
    - [pointer], [slice], [serr] : the other packages of the module
                  ([driver] holds the one function of database/sql/driver
                  a statement uses);
    - the theorems, one group per property. *)

From Stdlib Require Import ZArith String List Bool Lia DecimalString.
From Stdlib Require Import Floats.SpecFloat.
From Stdlib Require Import Eqdep_dec.
From Stdlib Require Strings.Byte.
From stdpp Require Import base decidable option list gmap.

Local Open Scope Z_scope.

(* ===================================================================== *)
(** * The Go fragment *)
(* ===================================================================== *)

Module Go.

(** ** Errors and panics *)

(** A Go [error] value: the nil interface or a non-nil error, identified
    here by its message. *)
Inductive error : Type :=
| nil_error
| Err (msg : string).

Definition is_nil_error (e : error) : bool :=
  match e with nil_error => true | Err _ => false end.

(** ** Types that can instantiate the payload parameter [T]

    The concrete types covered: [bool], the integer types [int] to
    [int64] and [uint] to [uint64], [float32], [float64], [string],
    [[]byte], and defined types [type name underlying].  [uintptr], the
    complex types and the composite types other than [[]byte] are not
    covered; interface types are the subject of [TypeArg] below.  [int]
    and [uint] are 64 bits wide (amd64, arm64). *)
Inductive GoType : Set :=
| TBool
| TInt | TInt8 | TInt16 | TInt32 | TInt64
| TUint | TUint8 | TUint16 | TUint32 | TUint64
| TFloat32 | TFloat64
| TString
| TBytes
| TNamed (name : string) (underlying : GoType).

#[global] Instance GoType_eq_dec : EqDecision GoType.
Proof.
  unfold EqDecision, Decision.
  decide equality. apply string_dec.
Defined.

(** Values of a type.  Integers are carried as [Z]; [in_range] below says
    which [Z] a given width can hold.  Floats are IEEE-754 values in the
    standard library's [spec_float]. *)
Fixpoint denote (t : GoType) : Type :=
  match t with
  | TBool => bool
  | TInt | TInt8 | TInt16 | TInt32 | TInt64
  | TUint | TUint8 | TUint16 | TUint32 | TUint64 => Z
  | TFloat32 | TFloat64 => spec_float
  | TString => string
  | TBytes => list Byte.byte
  | TNamed _ u => denote u
  end.

(** The zero value [var x T]. *)
Fixpoint zero_of (t : GoType) : denote t :=
  match t with
  | TBool => false
  | TInt | TInt8 | TInt16 | TInt32 | TInt64
  | TUint | TUint8 | TUint16 | TUint32 | TUint64 => 0
  | TFloat32 | TFloat64 => S754_zero false
  | TString => EmptyString
  | TBytes => []
  | TNamed _ u => zero_of u
  end.

(** Zero values for arbitrary instantiations of a type parameter. *)
Class GoZero (T : Type) : Type := zero_value : T.
#[global] Hint Mode GoZero ! : typeclass_instances.

(** ** Fixed-width integers *)

Definition int_size : Z := 64.

(** Bit width and signedness of the integer types. *)
Definition int_kind (t : GoType) : option (Z * bool) :=
  match t with
  | TInt => Some (int_size, true)
  | TInt8 => Some (8, true)
  | TInt16 => Some (16, true)
  | TInt32 => Some (32, true)
  | TInt64 => Some (64, true)
  | TUint => Some (int_size, false)
  | TUint8 => Some (8, false)
  | TUint16 => Some (16, false)
  | TUint32 => Some (32, false)
  | TUint64 => Some (64, false)
  | _ => None
  end.

Definition min_int (w : Z) (signed : bool) : Z :=
  if signed then - 2 ^ (w - 1) else 0.

Definition max_int (w : Z) (signed : bool) : Z :=
  if signed then 2 ^ (w - 1) - 1 else 2 ^ w - 1.

(** [in_range t v]: [v] is a value the integer type [t] can hold. *)
Definition in_range (t : GoType) (v : Z) : Prop :=
  match int_kind t with
  | Some (w, s) => min_int w s <= v <= max_int w s
  | None => False
  end.

(** The integer held by a value of a predeclared integer type. *)
Definition int_value (t : GoType) : denote t -> option Z :=
  match t return denote t -> option Z with
  | TInt | TInt8 | TInt16 | TInt32 | TInt64
  | TUint | TUint8 | TUint16 | TUint32 | TUint64 => fun v => Some v
  | _ => fun _ => None
  end.

(** The conversion [int64(v)] of an integer [v]: the low 64 bits of [v],
    read as a two's complement number. *)
Definition to_int64 (v : Z) : Z :=
  (v + 2 ^ 63) mod 2 ^ 64 - 2 ^ 63.

(** ** Floats *)

(** [float32] values are [spec_float]s valid for precision 24 and
    maximal exponent 128, [float64] for 53 and 1024. *)
Definition is_float32 (f : spec_float) : bool := valid_binary 24 128 f.
Definition is_float64 (f : spec_float) : bool := valid_binary 53 1024 f.

(** The conversion [float64(v)] of a [float32]: rounding to the nearest
    binary64 value. *)
Definition to_float64 (f : spec_float) : spec_float :=
  match f with
  | S754_finite s m e => binary_round 53 1024 s m e
  | _ => f
  end.

(** The real number a finite float stands for, scaled by [2 ^ k] so that
    it is an integer for every [k] large enough: the float [(s, m, e)] is
    [(-1)^s * m * 2^e]. *)
Definition scaled (k : Z) (s : bool) (m : positive) (e : Z) : Z :=
  cond_Zopp s (Z.pos m) * 2 ^ (e + k).

(** Two floats denote the same extended real (and the same sign of
    zero); NaN only matches NaN. *)
Definition same_number (f g : spec_float) : Prop :=
  match f, g with
  | S754_zero s, S754_zero s' => s = s'
  | S754_infinity s, S754_infinity s' => s = s'
  | S754_nan, S754_nan => True
  | S754_finite s m e, S754_finite s' m' e' =>
      forall k, 0 <= e + k -> 0 <= e' + k -> scaled k s m e = scaled k s' m' e'
  | _, _ => False
  end.

(** ** Dynamic values: [interface{}] *)

(** An interface value is nil or a value together with its dynamic
    type. *)
Inductive any : Type :=
| nil_any
| Box (t : GoType) (v : denote t).

Definition dynamic_type (x : any) : option GoType :=
  match x with
  | nil_any => None
  | Box t _ => Some t
  end.

(** [x == nil] *)
Definition is_nil (x : any) : bool :=
  match x with
  | nil_any => true
  | Box _ _ => false
  end.

(** A run-time panic.  A failed [x.(T)] raises a
    [runtime.TypeAssertionError]: for a concrete [T] it names [T] and
    the dynamic type of [x]; for an interface [T] it names the dynamic
    type of [x], which is missing a method of [T], or reports that [x]
    is nil. *)
Inductive panic : Type :=
| TypeAssertionError (asserted : GoType) (dynamic : option GoType)
| InterfaceAssertionError (dynamic : option GoType)
| InvalidAddress.

(** The result of running a function that may panic. *)
Inductive outcome (A : Type) : Type :=
| Returns (a : A)
| Panics (p : panic).
Arguments Returns {A} a.
Arguments Panics {A} p.

Definition cast {t u : GoType} (e : t = u) (v : denote t) : denote u :=
  eq_rect t denote v u e.

(** The single-result type assertion [x.(T)] for a concrete type [T]:
    it yields the value held by [x] if the dynamic type of [x] is
    identical to [T], and panics otherwise. *)
Definition type_assert (t : GoType) (x : any) : outcome (denote t) :=
  match x with
  | nil_any => Panics (TypeAssertionError t None)
  | Box u v =>
      match decide (u = t) with
      | left e => Returns (cast e v)
      | right _ => Panics (TypeAssertionError t (Some u))
      end
  end.

(** ** Type arguments of either kind

    The type argument of [Maybe[T]] is a concrete type or an interface
    type.  An interface type is given by the concrete types that
    implement it (all of them for [any]); its values are the interface
    values: nil, or a value of an implementing type with that type as
    its dynamic type. *)
Inductive TypeArg : Type :=
| Concrete (t : GoType)
| Interface (implemented_by : GoType -> bool).

Definition denote_arg (T : TypeArg) : Type :=
  match T with
  | Concrete t => denote t
  | Interface _ => any
  end.

(** The values of type [T]: for an interface type, nil and the values
    whose dynamic type implements it. *)
Definition has_type (T : TypeArg) : denote_arg T -> Prop :=
  match T with
  | Concrete _ => fun _ => True
  | Interface implemented_by =>
      fun v =>
        match v with
        | nil_any => True
        | Box u _ => implemented_by u = true
        end
  end.

(** The conversion [interface{}(v)] of a value of type [T]: a value of
    a concrete type becomes the dynamic value of an interface, a value
    of an interface type keeps its dynamic value and stays nil if it is
    nil. *)
Definition to_any (T : TypeArg) : denote_arg T -> any :=
  match T with
  | Concrete t => fun v => Box t v
  | Interface _ => fun v => v
  end.

(** The run-time type of [x] matches [T], so that [x.(T)] holds: [x] is
    not nil and its dynamic type is identical to the concrete type [T],
    or implements the interface type [T]. *)
Definition matches (T : TypeArg) (x : any) : bool :=
  match x with
  | nil_any => false
  | Box u _ =>
      match T with
      | Concrete t => bool_decide (u = t)
      | Interface implemented_by => implemented_by u
      end
  end.

(** The panic of a failed [x.(T)]. *)
Definition assertion_panic (T : TypeArg) (x : any) : panic :=
  match T with
  | Concrete t => TypeAssertionError t (dynamic_type x)
  | Interface _ => InterfaceAssertionError (dynamic_type x)
  end.

(** The single-result type assertion [x.(T)] for a type argument of
    either kind.  For an interface type it yields [x] itself, as a
    value of that type, if [x] is not nil and its dynamic type
    implements [T]. *)
Definition type_assert_arg (T : TypeArg) (x : any) : outcome (denote_arg T) :=
  match T with
  | Concrete t => type_assert t x
  | Interface implemented_by =>
      match x with
      | nil_any => Panics (InterfaceAssertionError None)
      | Box u v =>
          if implemented_by u then Returns (Box u v)
          else Panics (InterfaceAssertionError (Some u))
      end
  end.

End Go.

(* ===================================================================== *)
(** * Package maybe *)
(* ===================================================================== *)

Module maybe.
Import Go.

#[global] Instance byte_eq_dec : EqDecision Byte.byte := Byte.byte_eq_dec.

(** [null = nocopy.Bytes("null")]: the four bytes of the JSON null
    token. *)
Definition null : list Byte.byte :=
  [Byte.x6e; Byte.x75; Byte.x6c; Byte.x6c].

(** [func Identity[T any](x T) T] *)
Definition Identity {T : Type} (x : T) : T := x.

(** [type Maybe[T any] struct { Val T; Valid bool }] *)
Record Maybe (T : Type) : Type := mkMaybe { Val : T; Valid : bool }.
Arguments mkMaybe {T} Val Valid.
Arguments Val {T} m.
Arguments Valid {T} m.

(** The composite literal [Maybe[T]{}]: every field at its zero value. *)
#[global] Instance Maybe_zero {T : Type} `{GoZero T} : GoZero (Maybe T) :=
  {| Val := zero_value; Valid := false |}.

#[global] Instance denote_zero (t : GoType) : GoZero (denote t) := zero_of t.

(** ** Constructors and accessors with a value receiver *)

(** [func Unit[T any](x T) Maybe[T]] *)
Definition Unit {T : Type} (x : T) : Maybe T :=
  {| Val := x; Valid := true |}.

(** [func Nothing[T any]() Maybe[T]] *)
Definition Nothing {T : Type} `{GoZero T} : Maybe T :=
  zero_value.

(** [func New[T any](x *T) Maybe[T]]; the argument is [None] for a nil
    pointer and [Some v] for a pointer to a variable holding [v]. *)
Definition New {T : Type} `{GoZero T} (x : option T) : Maybe T :=
  match x with
  | None => Nothing
  | Some v => Unit v
  end.

(** Two optionals are the same optional value: both are empty, or both
    are present with the same payload.  The payload slot of an empty
    optional is not part of its value. *)
Definition same_optional {T : Type} (m1 m2 : Maybe T) : Prop :=
  Valid m1 = Valid m2 /\ (Valid m1 = true -> Val m1 = Val m2).

(** [func (m Maybe[T]) GetOr(defVal T) T] *)
Definition GetOr {T : Type} (m : Maybe T) (defVal : T) : T :=
  if Valid m then Val m else defVal.

(** [func (m Maybe[T]) GetOrZero() T] *)
Definition GetOrZero {T : Type} `{GoZero T} (m : Maybe T) : T :=
  if Valid m then Val m else zero_value.

(** ** Combinators *)

(** [func Fmap[T, U any](f func(T) U, x Maybe[T]) Maybe[U]] *)
Definition Fmap {T U : Type} `{GoZero U} (f : T -> U) (x : Maybe T) : Maybe U :=
  if negb (Valid x) then zero_value
  else {| Valid := true; Val := f (Val x) |}.

(** [func FallibleFmap[T, U any](f func(T) (U, error), x Maybe[T]) (Maybe[U], error)] *)
Definition FallibleFmap {T U : Type} `{GoZero U}
    (f : T -> U * error) (x : Maybe T) : Maybe U * error :=
  if negb (Valid x) then (zero_value, nil_error)
  else
    let '(y, err) := f (Val x) in
    if negb (is_nil_error err) then (zero_value, err)
    else ({| Valid := true; Val := y |}, nil_error).

(** [func Bind[T, U any](f func(T) Maybe[U], x Maybe[T]) Maybe[U]] *)
Definition Bind {T U : Type} `{GoZero U} (f : T -> Maybe U) (x : Maybe T) : Maybe U :=
  if negb (Valid x) then zero_value
  else f (Val x).

(** [func Join[T any](x Maybe[Maybe[T]]) Maybe[T]] *)
Definition Join {T : Type} `{GoZero T} (x : Maybe (Maybe T)) : Maybe T :=
  Bind Identity x.

(** ** Addressable variables

    The methods with a pointer receiver, and the value-receiver methods
    that return the address of their receiver, act on variables.  The
    store holds the variables of type [Maybe[T]] and the variables of
    type [T] that exist at some point of a run; a variable is never
    freed (Go is garbage collected), and a new one takes the next free
    index. *)

Record store (T : Type) : Type := mkStore {
  objects : list (Maybe T);
  cells : list T
}.
Arguments mkStore {T} objects cells.
Arguments objects {T} s.
Arguments cells {T} s.

(** A [*Maybe[T]]: the index of the variable pointed to. *)
Abbreviation ref := nat (only parsing).

(** A non-nil [*T]: the [Val] field of a [Maybe[T]] variable, or a
    variable of type [T]. *)
Inductive addr : Type :=
| ValOf (r : ref)
| CellAt (c : nat).

#[global] Instance addr_eq_dec : EqDecision addr.
Proof. solve_decision. Defined.

(** A [*T] or an [unsafe.Pointer] to a [T]: nil or an address. *)
Definition pointer : Type := option addr.

(** Computations on the store that may panic; the store at the time of
    the panic is kept (a deferred [recover] sees it). *)
Definition M (T A : Type) : Type := store T -> outcome A * store T.

#[global] Instance M_ret {T : Type} : MRet (M T) :=
  fun A a s => (Returns a, s).

#[global] Instance M_bind {T : Type} : MBind (M T) :=
  fun A B k c s =>
    match c s with
    | (Returns a, s') => k a s'
    | (Panics p, s') => (Panics p, s')
    end.

Section Store.
Context {T : Type}.

(** [*r] *)
Definition load (r : ref) : M T (Maybe T) :=
  fun s =>
    match objects s !! r with
    | Some o => (Returns o, s)
    | None => (Panics InvalidAddress, s)
    end.

(** [r.Val = v] *)
Definition store_Val (r : ref) (v : T) : M T unit :=
  fun s =>
    match objects s !! r with
    | Some o =>
        (Returns tt,
         mkStore (<[r := mkMaybe v (Valid o)]> (objects s)) (cells s))
    | None => (Panics InvalidAddress, s)
    end.

(** [r.Valid = b] *)
Definition store_Valid (r : ref) (b : bool) : M T unit :=
  fun s =>
    match objects s !! r with
    | Some o =>
        (Returns tt,
         mkStore (<[r := mkMaybe (Val o) b]> (objects s)) (cells s))
    | None => (Panics InvalidAddress, s)
    end.

(** A new variable initialised with [o] (a parameter passed by value
    whose address is taken); the result is its address. *)
Definition new_var (o : Maybe T) : M T ref :=
  fun s =>
    (Returns (length (objects s)),
     mkStore (objects s ++ [o]) (cells s)).

(** [*a] *)
Definition load_addr (a : addr) : M T T :=
  fun s =>
    match a with
    | ValOf r =>
        match objects s !! r with
        | Some o => (Returns (Val o), s)
        | None => (Panics InvalidAddress, s)
        end
    | CellAt c =>
        match cells s !! c with
        | Some v => (Returns v, s)
        | None => (Panics InvalidAddress, s)
        end
    end.

(** [*a = v] *)
Definition store_addr (a : addr) (v : T) : M T unit :=
  match a with
  | ValOf r => store_Val r v
  | CellAt c =>
      fun s =>
        match cells s !! c with
        | Some _ => (Returns tt, mkStore (objects s) (<[c := v]> (cells s)))
        | None => (Panics InvalidAddress, s)
        end
  end.

(** A call [x.f()] of a value-receiver method on the variable at [r]:
    the receiver is a copy of the variable. *)
Definition by_value {A : Type} (f : Maybe T -> M T A) (r : ref) : M T A :=
  o ← load r; f o.

(** ** Methods that do not depend on the run-time type *)

(** [func (m Maybe[T]) MaybeIface() Iface]: [return &m], the address of
    the receiver copy. *)
Definition MaybeIface (m : Maybe T) : M T ref :=
  new_var m.

(** [func (m Maybe[T]) Pointer() *T]: [&m.Val] of the receiver copy if
    valid, nil otherwise. *)
Definition Pointer (m : Maybe T) : M T pointer :=
  r ← new_var m;
  o ← load r;
  if Valid o then mret (Some (ValOf r)) else mret None.

(** [func (m *Maybe[T]) GetPtr() unsafe.Pointer] *)
Definition GetPtr (m : ref) : M T pointer :=
  by_value Pointer m.

(** [func (m *Maybe[T]) SetPtr(ptr unsafe.Pointer)] *)
Definition SetPtr (m : ref) (ptr : pointer) : M T unit :=
  match ptr with
  | None => store_Valid m false
  | Some a =>
      store_Valid m true;;
      v ← load_addr a;
      store_Val m v
  end.

(** [func (m *Maybe[T]) SetValid()] *)
Definition SetValid (m : ref) : M T unit :=
  store_Valid m true.

End Store.

(** ** The bridge methods that depend on the run-time type of [T] *)

Section Bridge.
Variable t : GoType.
Abbreviation T := (denote t).

(** A panic raised by an expression of the method body. *)
Definition eval {A : Type} (r : outcome A) : M T A :=
  fun s => (r, s).

(** [func (m *Maybe[T]) MaybeType() reflect.Type] *)
Definition MaybeType (m : ref) : M T GoType :=
  mret t.

(** [func (m *Maybe[T]) Get() (interface{}, bool)] *)
Definition Get (m : ref) : M T (any * bool) :=
  o ← load m;
  if Valid o then mret (Box t (Val o), true)
  else mret (nil_any, false).

(** [func (m *Maybe[T]) Set(x interface{})]: [m.Val = x.(T)] and then
    [m.Valid = true]. *)
Definition Set_ (m : ref) (x : any) : M T unit :=
  v ← eval (type_assert t x);
  store_Val m v;;
  store_Valid m true.

End Bridge.

(** ** The JSON adapter *)

Section JSON.
Context {T : Type}.

(** [json.Marshal(v)] for a [v] of type [T]. *)
Variable json_Marshal : T -> list Byte.byte * error.

(** [json.Unmarshal(data, p)] for a [p] of type [*T]: from the bytes
    and the contents of [*p] before the call, the contents of [*p]
    after it and the error. *)
Variable json_Unmarshal : list Byte.byte -> T -> T * error.

(** [func (m Maybe[T]) MarshalJSON() ([]byte, error)] *)
Definition MarshalJSON (m : Maybe T) : list Byte.byte * error :=
  if negb (Valid m) then (null, nil_error)
  else json_Marshal (Val m).

(** [func (m *Maybe[T]) UnmarshalJSON(val []byte) error] *)
Definition UnmarshalJSON (m : ref) (val : list Byte.byte) : M T error :=
  if decide (val = null) then mret nil_error
  else
    store_Valid m true;;
    o ← load m;
    let '(v, err) := json_Unmarshal val (Val o) in
    store_Val m v;;
    mret err.

End JSON.

(** ** The database adapter *)

(** [sql.Null[T]]: [struct { V T; Valid bool }]. *)
Record Null (T : Type) : Type := mkNull { V : T; NullValid : bool }.
Arguments mkNull {T} V NullValid.
Arguments V {T} n.
Arguments NullValid {T} n.

Section Scan.
Context {T : Type} {zero_T : GoZero T}.

(** The method [Scan(value any) error] of [sql.Null[T]] (pointer
    receiver): from the contents of the receiver
    before the call and the scanned value, the contents after it and
    the error. *)
Variable Null_Scan : Null T -> any -> Null T * error.

(** [func (m *Maybe[T]) Scan(val any) error] *)
Definition Scan (m : ref) (val : any) : M T error :=
  let v := mkNull zero_value false in
  let '(v, err) := Null_Scan v val in
  if negb (is_nil_error err) then mret err
  else
    store_Valid m (NullValid v);;
    store_Val m (V v);;
    mret nil_error.

End Scan.

Section Value.

(** The [Value() (driver.Value, error)] methods the program declares:
    for a defined type [type name underlying], its method if it has
    one.  (A [driver.Value] is an [interface{}].) *)
Variable Valuer : string -> forall u : GoType, option (denote u -> any * error).

(** The type-switch case [case driver.Valuer]: the predeclared types
    have no methods. *)
Definition as_Valuer (t : GoType) : option (denote t -> any * error) :=
  match t with
  | TNamed name u => Valuer name u
  | _ => None
  end.

(** The remaining cases of the type switch and the final
    [return m.Val, nil]. *)
Definition convert (t : GoType) : denote t -> any :=
  match t return denote t -> any with
  | TInt => fun v => Box TInt64 (to_int64 v)
  | TUint => fun v => Box TInt64 (to_int64 v)
  | TInt8 => fun v => Box TInt64 (to_int64 v)
  | TInt16 => fun v => Box TInt64 (to_int64 v)
  | TInt32 => fun v => Box TInt64 (to_int64 v)
  | TUint8 => fun v => Box TInt64 (to_int64 v)
  | TUint16 => fun v => Box TInt64 (to_int64 v)
  | TUint32 => fun v => Box TInt64 (to_int64 v)
  | TUint64 => fun v => Box TInt64 (to_int64 v)
  | TFloat32 => fun v => Box TFloat64 (to_float64 v)
  | u => fun v => Box u v
  end.

(** [func (m Maybe[T]) Value() (driver.Value, error)] *)
Definition Value (t : GoType) (m : Maybe (denote t)) : any * error :=
  if negb (Valid m) then (nil_any, nil_error)
  else
    match as_Valuer t with
    | Some value => value (Val m)
    | None => (convert t (Val m), nil_error)
    end.

End Value.

(** ** The bridge at a type argument of either kind

    [Get] and [Set] once more, for a payload type that may also be an
    interface type; at a concrete type they are [Get] and [Set_]
    above. *)

Section BridgeAtTypeArg.
Variable T : TypeArg.

(** [func (m *Maybe[T]) Get() (interface{}, bool)]: [return m.Val, true]
    converts the payload to [interface{}]. *)
Definition Get_arg (m : ref) : M (denote_arg T) (any * bool) :=
  o ← load m;
  if Valid o then mret (to_any T (Val o), true)
  else mret (nil_any, false).

(** [func (m *Maybe[T]) Set(x interface{})]: [m.Val = x.(T)] and then
    [m.Valid = true]. *)
Definition Set_arg (m : ref) (x : any) : M (denote_arg T) unit :=
  v ← (fun s => (type_assert_arg T x, s));
  store_Val m v;;
  store_Valid m true.

End BridgeAtTypeArg.

End maybe.

(* ===================================================================== *)
(** * Instances used in the examples *)
(* ===================================================================== *)

Module samples.
Import Go maybe.

(** [encoding/json] at [T = bool], on tokens without surrounding white
    space: [true] and [false] are the only encodings, the null token
    leaves the destination as it is, and any other input is rejected
    with the destination untouched. *)
Definition json_true : list Byte.byte :=
  [Byte.x74; Byte.x72; Byte.x75; Byte.x65].
Definition json_false : list Byte.byte :=
  [Byte.x66; Byte.x61; Byte.x6c; Byte.x73; Byte.x65].

Definition bool_Marshal (v : bool) : list Byte.byte * error :=
  (if v then json_true else json_false, nil_error).

Definition bool_Unmarshal (data : list Byte.byte) (dst : bool) : bool * error :=
  if decide (data = json_true) then (true, nil_error)
  else if decide (data = json_false) then (false, nil_error)
  else if decide (data = null) then (dst, nil_error)
  else (dst, Err "invalid JSON boolean").

(** [encoding/json] at [T = *bool], a pointer modelled by the value it
    points to: nil is encoded as the null token and decoded from it. *)
Definition ptr_bool_Marshal (v : option bool) : list Byte.byte * error :=
  match v with
  | None => (null, nil_error)
  | Some b => bool_Marshal b
  end.

Definition ptr_bool_Unmarshal (data : list Byte.byte) (dst : option bool)
    : option bool * error :=
  if decide (data = null) then (None, nil_error)
  else if decide (data = json_true) then (Some true, nil_error)
  else if decide (data = json_false) then (Some false, nil_error)
  else (dst, Err "invalid JSON boolean").

#[global] Instance bool_zero : GoZero bool := false.
#[global] Instance ptr_zero {A : Type} : GoZero (option A) := None.

(** [sql.Null[int64].Scan] on the source values NULL (the receiver is
    reset), [int64] (stored) and [bool] (rejected by the conversion,
    after the receiver was marked valid).  The other source kinds, which
    [database/sql] converts through their textual form, are rejected
    here. *)
Definition Null_int64_Scan (n : Null (denote TInt64)) (value : any)
    : Null (denote TInt64) * error :=
  match value with
  | nil_any => (mkNull 0 false, nil_error)
  | Box TInt64 v => (mkNull v true, nil_error)
  | Box _ _ => (mkNull (V n) true, Err "unsupported Scan")
  end.

(** Decoding into a freshly constructed optional:
    [var m Maybe[T]; err := m.UnmarshalJSON(val)].  The result is [err]
    and the contents of [m] after the call. *)
Definition decode_fresh {T : Type} {zero_T : GoZero T}
    (json_Unmarshal : list Byte.byte -> T -> T * error) (val : list Byte.byte)
    : M T (error * Maybe T) :=
  m ← new_var zero_value;
  err ← UnmarshalJSON json_Unmarshal m val;
  o ← load m;
  mret (err, o).

(** The payload type round-trips through the codec: every value has an
    encoding, and decoding it into a new variable gives the value
    back. *)
Definition codec_round_trips {T : Type} {zero_T : GoZero T}
    (json_Marshal : T -> list Byte.byte * error)
    (json_Unmarshal : list Byte.byte -> T -> T * error) : Prop :=
  forall x : T,
    exists b, json_Marshal x = (b, nil_error) /\
              json_Unmarshal b zero_value = (x, nil_error).

(** The calls through which an [Iface] mutates the optional behind
    it. *)
Inductive mutation : Type :=
| CallSet (x : any)
| CallSetPtr (ptr : pointer)
| CallSetValid.

Definition mutate (t : GoType) (c : mutation) (i : ref) : M (denote t) unit :=
  match c with
  | CallSet x => Set_ t i x
  | CallSetPtr ptr => SetPtr i ptr
  | CallSetValid => SetValid i
  end.

(** A program that declares no [Value] method. *)
Definition no_Valuer (name : string) (u : GoType)
    : option (denote u -> any * error) := None.

End samples.

(* ===================================================================== *)
(** * Package pointer *)
(* ===================================================================== *)

Module pointer.
Import Go maybe.

(** [func To[T any](x T) *T]: [return &x], the address of the
    parameter, a new variable of type [T]. *)
Definition To {T : Type} (x : T) : M T pointer :=
  fun s =>
    (Returns (Some (CellAt (length (cells s)))),
     mkStore (objects s) (cells s ++ [x])).

(** The call [maybe.New(x)] for a pointer [x] into the store: the
    function reads the pointee with [*x] when [x] is not nil. *)
Definition New_at {T : Type} `{GoZero T} (x : pointer) : M T (Maybe T) :=
  match x with
  | None => mret (New None)
  | Some a => v ← load_addr a; mret (New (Some v))
  end.

End pointer.

(* ===================================================================== *)
(** * Package database/sql/driver *)
(* ===================================================================== *)

Module driver.
Import Go.

(** [driver.IsValue(v)]: [v] is nil or has one of the types a driver
    accepts as a value.  ([time.Time] is not among the payload types
    modelled.) *)
Definition IsValue (v : any) : bool :=
  match v with
  | nil_any => true
  | Box (TBytes | TBool | TFloat64 | TInt64 | TString) _ => true
  | Box _ _ => false
  end.

End driver.

(* ===================================================================== *)
(** * Package slice *)
(* ===================================================================== *)

Module slice.
Import Go maybe.

(** A slice as this package sees it: nil, or the sequence of its
    elements.  The functions only read their arguments and return
    slices they allocate themselves, so capacities and the sharing of
    backing arrays play no part. *)
Abbreviation Slice T := (option (list T)) (only parsing).

(** The zero value of a slice type is the nil slice. *)
#[global] Instance Slice_zero {T : Type} : GoZero (option (list T)) := None.

(** The elements [range l] visits; none for the nil slice. *)
Definition elems {T : Type} (l : Slice T) : list T :=
  match l with
  | None => []
  | Some xs => xs
  end.

(** [len(l)] *)
Definition len {T : Type} (l : Slice T) : nat := length (elems l).

(** [make([]U, n)]: [n] zero values. *)
Definition make {U : Type} `{GoZero U} (n : nat) : list U :=
  replicate n zero_value.

(** [append(r, ys...)]: appending nothing to the nil slice gives the nil
    slice; in every other case the result is not nil. *)
Definition append {U : Type} (r : Slice U) (ys : list U) : Slice U :=
  match r, ys with
  | None, [] => None
  | _, _ => Some (elems r ++ ys)
  end.

(** The loop [for i, x := range l { r[i] = f(x) }], from index [i] on.
    (The index is always within [r], which has the length of [l].) *)
Fixpoint Fmap_range {T U : Type} (f : T -> U) (i : nat) (l : list T)
    (r : list U) : list U :=
  match l with
  | [] => r
  | x :: l' => Fmap_range f (S i) l' (<[i := f x]> r)
  end.

(** [func Fmap[T, U any](f func(T) U, l []T) []U] *)
Definition Fmap {T U : Type} `{GoZero U} (f : T -> U) (l : Slice T) : Slice U :=
  match l with
  | None => None
  | Some xs => Some (Fmap_range f 0 xs (make (length xs)))
  end.

(** The loop [for _, x := range l { r = append(r, f(x)...) }]. *)
Fixpoint Bind_range {T U : Type} (f : T -> Slice U) (l : list T)
    (r : Slice U) : Slice U :=
  match l with
  | [] => r
  | x :: l' => Bind_range f l' (append r (elems (f x)))
  end.

(** [func Bind[T, U any](f func(T) []U, l []T) []U] *)
Definition Bind {T U : Type} (f : T -> Slice U) (l : Slice T) : Slice U :=
  match l with
  | None => None
  | Some xs => Bind_range f xs None
  end.

(** [func Join[T any](x [][]T) []T] *)
Definition Join {T : Type} (x : Slice (Slice T)) : Slice T :=
  match x with
  | None => None
  | Some _ => Bind Identity x
  end.

(** The loop of [FallibleFmap], from index [i] on, with its early
    return. *)
Fixpoint FallibleFmap_range {T U : Type} (f : T -> U * error) (i : nat)
    (l : list T) (r : list U) : Slice U * error :=
  match l with
  | [] => (Some r, nil_error)
  | x :: l' =>
      let '(y, err) := f x in
      if negb (is_nil_error err) then (None, err)
      else FallibleFmap_range f (S i) l' (<[i := y]> r)
  end.

(** [func FallibleFmap[T, U any](f func(T) (U, error), l []T) ([]U, error)] *)
Definition FallibleFmap {T U : Type} `{GoZero U} (f : T -> U * error)
    (l : Slice T) : Slice U * error :=
  match l with
  | None => (None, nil_error)
  | Some xs => FallibleFmap_range f 0 xs (make (length xs))
  end.

Section Sets.
Context {T U : Type} `{Countable T}.

(** The keys of a [map[T]struct{}] in the order in which one
    [for x := range s] visits them.  Go leaves the order unspecified;
    each key is visited once. *)
Variable range_keys : gset T -> list T.

(** The loop [for x := range s { r = append(r, f(x)) }]. *)
Fixpoint SetFmap_range (f : T -> U) (keys : list T) (r : Slice U) : Slice U :=
  match keys with
  | [] => r
  | x :: keys' => SetFmap_range f keys' (append r [f x])
  end.

(** [func SetFmap[T comparable, U any](f func(T) U, s map[T]struct{}) []U];
    [make([]U, 0, len(s))] is an empty slice that is not nil. *)
Definition SetFmap (f : T -> U) (s : gset T) : Slice U :=
  SetFmap_range f (range_keys s) (Some []).

(** The loop of [FallibleSetFmap], with its early return. *)
Fixpoint FallibleSetFmap_range (f : T -> U * error) (keys : list T)
    (r : Slice U) : Slice U * error :=
  match keys with
  | [] => (r, nil_error)
  | x :: keys' =>
      let '(y, err) := f x in
      if negb (is_nil_error err) then (None, err)
      else FallibleSetFmap_range f keys' (append r [y])
  end.

(** [func FallibleSetFmap[T comparable, U any](f func(T) (U, error), s map[T]struct{}) ([]U, error)] *)
Definition FallibleSetFmap (f : T -> U * error) (s : gset T) : Slice U * error :=
  FallibleSetFmap_range f (range_keys s) (Some []).

End Sets.

End slice.

(* ===================================================================== *)
(** * Package serr *)
(* ===================================================================== *)

Module serr.

(** ** What the package takes from other packages

    The types [uuid.UUID] and [time.Time] with their [String] methods;
    the values of any other type stored in an attribute ([Obj]), with
    the [LogString] method of those that implement [Loggable]; and the
    errors of other packages ([Ext]), with their [Error] method and
    what [errors.Is] and [errors.As] answer on them. *)
Class Externals : Type := {
  uuid_UUID : Type;
  time_Time : Type;
  Obj : Type;
  Ext : Type;
  UUID_String : uuid_UUID -> string;
  Time_String : time_Time -> string;
  Obj_LogString : Obj -> string;
  ext_Error : Ext -> string;
  (** [errors.Is(e, target)] for an error [e] of another package *)
  ext_Is : Ext -> Ext -> bool;
  (** [errors.As(e, &jsonErr)] with [jsonErr] a [*json.SyntaxError] *)
  ext_As_SyntaxError : Ext -> bool;
  (** [ErrNotPermitted = errors.New("not permitted")] *)
  ErrNotPermitted : Ext;
  (** [sql.ErrNoRows] *)
  sql_ErrNoRows : Ext
}.

Section Definitions.
Context {X : Externals}.

(** The dynamic values an attribute can hold, by the case of the type
    switches that takes them.  A value that implements [error] is
    represented by the string its [Error] method returns, which is all
    this package asks of it. *)
Inductive value : Type :=
| VString (s : string)
| VInt (n : Z)
| VUint (n : Z)
| VUUID (u : uuid_UUID)
| VTime (t : time_Time)
| VError (msg : string)
| VLoggable (o : Obj)
| VOther (o : Obj).

(** [type Attr struct { key string; value interface{} }] *)
Record Attr : Type := mkAttr { key : string; attr_value : value }.

(** [type Attributed interface { Attributes() []Attr }]: an [Attr]
    itself, or a value of some other type with the attributes its
    method returns. *)
Inductive Attributed : Type :=
| OfAttr (a : Attr)
| Custom (attributes : list Attr).

(** [func (a Attr) Attributes() []Attr], and the method of the other
    implementations. *)
Definition Attributes (x : Attributed) : list Attr :=
  match x with
  | OfAttr a => [a]
  | Custom attributes => attributes
  end.

(** The non-nil values of type [error]: an error of another package, or
    a pointer to one of the three structs of this package. *)
Inductive error : Type :=
| External (e : Ext)
| serror (msg : string) (attrs : list Attributed)
| wrapped (msg : string) (err : error) (attrs : list Attributed)
| wrappedMulti (msg : string) (errs : list error) (attrs : list Attributed).

(** [json.MarshalIndent(val, "", " ")] ([None] for an error) and the
    verb [%v] of [fmt], on attribute values. *)
Class Printers : Type := {
  json_MarshalIndent : value -> option string;
  fmt_v : value -> string
}.
Context {P : Printers}.

(** [strconv.Itoa(n)] and [strconv.FormatUint(n, 10)]. *)
Definition Itoa (n : Z) : string := NilZero.string_of_int (Z.to_int n).
Definition FormatUint10 (n : Z) : string := NilZero.string_of_int (Z.to_int n).

(** [func logString(val interface{}) (string, bool)] *)
Definition logString (val : value) : string * bool :=
  match val with
  | VString s => (s, true)
  | VInt n => (Itoa n, true)
  | VUint n => (FormatUint10 n, true)
  | VUUID u => (UUID_String u, true)
  | VTime t => (Time_String t, true)
  | VError msg => (msg, true)
  | VLoggable o => (Obj_LogString o, true)
  | VOther _ =>
      match json_MarshalIndent val with
      | None => (EmptyString, false)
      | Some b => (b, true)
      end
  end.

(** The body of the inner loop of the three [Error] methods, on the
    contents [sb] of the string builder. *)
Definition write_attr (sb : string) (attr : Attr) : string :=
  let sb := (sb ++ " ")%string in
  let sb := (sb ++ key attr)%string in
  let sb := (sb ++ "=")%string in
  let '(logstr, ok) := logString (attr_value attr) in
  if ok then (sb ++ logstr)%string
  else (sb ++ fmt_v (attr_value attr))%string.

(** [for _, attr := range attrs { for _, attr := range attr.Attributes() { ... } }] *)
Definition write_attrs (sb : string) (attrs : list Attributed) : string :=
  fold_left (fun sb attr => fold_left write_attr (Attributes attr) sb) attrs sb.

(** The result of [wrapped.message] from [se.msg] and
    [se.err.Error()]. *)
Definition wrapped_message (msg inner : string) : string :=
  if String.eqb msg "" then inner
  else (msg ++ ": " ++ inner)%string.

(** The result of [wrappedMulti.message] from [se.msg] and the
    slice [sfx] of the messages of [se.errs]. *)
Definition wrappedMulti_message (msg : string) (sfx : list string) : string :=
  if String.eqb msg "" then String.concat "/" sfx
  else (msg ++ ": " ++ String.concat "/" sfx)%string.

(** The method [Error() string] of an error value: [serror.Error],
    [wrapped.Error], [wrappedMulti.Error], or the method of an
    error of another package. *)
Fixpoint Error (err : error) : string :=
  match err with
  | External e => ext_Error e
  | serror msg attrs => write_attrs msg attrs
  | wrapped msg err attrs =>
      write_attrs (wrapped_message msg (Error err)) attrs
  | wrappedMulti msg errs attrs =>
      write_attrs (wrappedMulti_message msg (map Error errs)) attrs
  end.

(** [wrapped.message] and [wrappedMulti.message]. *)
Definition message (err : error) : option string :=
  match err with
  | wrapped msg err _ => Some (wrapped_message msg (Error err))
  | wrappedMulti msg errs _ => Some (wrappedMulti_message msg (map Error errs))
  | _ => None
  end.

(** [wrapped.Unwrap() error] and [wrappedMulti.Unwrap() []error]:
    the errors directly below an error of this package. *)
Definition Unwrap (err : error) : list error :=
  match err with
  | wrapped _ err _ => [err]
  | wrappedMulti _ errs _ => errs
  | _ => []
  end.

(** The field [attrs] of an error of this package. *)
Definition attrs_of (err : error) : list Attributed :=
  match err with
  | External _ => []
  | serror _ attrs | wrapped _ _ attrs | wrappedMulti _ _ attrs => attrs
  end.

(** [inner] is in the tree of [err]: [err] itself or, repeatedly, one
    of the errors returned by [Unwrap]. *)
Inductive in_tree : error -> error -> Prop :=
| in_tree_self (err : error) : in_tree err err
| in_tree_unwrap (err child inner : error) :
    In child (Unwrap err) -> in_tree child inner -> in_tree err inner.

(** The attribute constructors. *)
Definition String (key value : string) : Attr := mkAttr key (VString value).
Definition Int (key : string) (value : Z) : Attr := mkAttr key (VInt value).
Definition UUID (key : string) (value : uuid_UUID) : Attr := mkAttr key (VUUID value).
Definition Time (key : string) (value : time_Time) : Attr := mkAttr key (VTime value).
Definition Uint (key : string) (value : Z) : Attr := mkAttr key (VUint value).
Definition Any (key : string) (value : value) : Attr := mkAttr key value.

(** [func Error(key string, value error) Attr], for a non-nil
    [value]. *)
Definition Error_ (key : string) (value : error) : Attr :=
  mkAttr key (VError (Error value)).

(** [func New(msg string, attrs ...Attributed) error] *)
Definition New (msg : string) (attrs : list Attributed) : error :=
  serror msg attrs.

(** [func Wrap(msg string, err error, attrs ...Attributed) error] *)
Definition Wrap (msg : string) (err : error) (attrs : list Attributed) : error :=
  wrapped msg err attrs.

(** [func WrapMulti(msg string, errs []error, attrs ...Attributed) error] *)
Definition WrapMulti (msg : string) (errs : list error)
    (attrs : list Attributed) : error :=
  wrappedMulti msg errs attrs.

(** ** Logging *)

(** The [slog.Attr] values built by [slog.String], [slog.Int],
    [slog.Time] and [slog.Any]. *)
Inductive slog_Attr : Type :=
| slog_String (key value : string)
| slog_Int (key : string) (value : Z)
| slog_Time (key : string) (value : time_Time)
| slog_Any (key : string) (value : value).

Definition slog_key (a : slog_Attr) : string :=
  match a with
  | slog_String k _ | slog_Int k _ | slog_Time k _ | slog_Any k _ => k
  end.

(** The body of the inner loop of [attrsToSlog]: the [slog.Attr]
    appended for one attribute. *)
Definition attrToSlog (attr : Attr) : slog_Attr :=
  match attr_value attr with
  | VString val => slog_String (key attr) val
  | VInt val => slog_Int (key attr) val
  | VUUID val => slog_String (key attr) (UUID_String val)
  | VTime val => slog_Time (key attr) val
  | VError msg => slog_String (key attr) msg
  | val =>
      let '(logstr, ok) := logString val in
      if ok then slog_String (key attr) logstr
      else slog_Any (key attr) val
  end.

(** [func attrsToSlog(errAttrs []Attributed) []interface{}] *)
Definition attrsToSlog (errAttrs : list Attributed) : list slog_Attr :=
  fold_left
    (fun attrs attr =>
       fold_left (fun attrs attr => attrs ++ [attrToSlog attr])
                 (Attributes attr) attrs)
    errAttrs [].

(** [slog.Level] *)
Inductive Level : Type := LevelDebug | LevelInfo | LevelWarn | LevelError.

(** A call [logger.Log(ctx, level, msg, args...)]. *)
Record log_call : Type := mkLog {
  log_level : Level;
  log_msg : string;
  log_args : list slog_Attr
}.

(** [func Log(ctx context.Context, logger *slog.Logger, level slog.Level, err error)]:
    the call it makes on the logger. *)
Definition Log (level : Level) (err : error) : log_call :=
  match err with
  | serror msg attrs => mkLog level msg (attrsToSlog attrs)
  | wrapped msg inner attrs =>
      mkLog level (wrapped_message msg (Error inner)) (attrsToSlog attrs)
  | wrappedMulti msg errs attrs =>
      mkLog level (wrappedMulti_message msg (map Error errs)) (attrsToSlog attrs)
  | External _ => mkLog level (Error err) []
  end.

(** [LogDebug], [LogInfo], [LogWarn], [LogError]. *)
Definition LogDebug (err : error) : log_call := Log LevelDebug err.
Definition LogInfo (err : error) : log_call := Log LevelInfo err.
Definition LogWarn (err : error) : log_call := Log LevelWarn err.
Definition LogError (err : error) : log_call := Log LevelError err.

(** ** Conversion to gRPC *)

(** [errors.Is(err, target)] for a [target] of another package: [err]
    itself, then the errors its [Unwrap] method returns, depth first.
    A pointer to a struct of this package is never equal to [target]
    and has no [Is] method. *)
Fixpoint errors_Is (err : error) (target : Ext) : bool :=
  match err with
  | External e => ext_Is e target
  | serror _ _ => false
  | wrapped _ err _ => errors_Is err target
  | wrappedMulti _ errs _ => existsb (fun err => errors_Is err target) errs
  end.

(** [errors.As(err, &jsonErr)] with [jsonErr] a [*json.SyntaxError]:
    the same traversal. *)
Fixpoint errors_As_SyntaxError (err : error) : bool :=
  match err with
  | External e => ext_As_SyntaxError e
  | serror _ _ => false
  | wrapped _ err _ => errors_As_SyntaxError err
  | wrappedMulti _ errs _ => existsb errors_As_SyntaxError errs
  end.

(** The gRPC status codes used. *)
Inductive Code : Type := Unauthenticated | NotFound | InvalidArgument | Internal.

(** [uuid.IsInvalidLengthError(err)] *)
Variable uuid_IsInvalidLengthError : error -> bool.

(** [func ToGRPC(err error) error]: the code and the message of the
    status error returned by [status.Error]. *)
Definition ToGRPC (err : error) : Code * string :=
  let msg := Error err in
  if errors_Is err ErrNotPermitted then (Unauthenticated, msg)
  else if errors_Is err sql_ErrNoRows then (NotFound, msg)
  else if uuid_IsInvalidLengthError err then (InvalidArgument, msg)
  else if String.eqb msg "invalid UUID format" then (InvalidArgument, msg)
  else if errors_As_SyntaxError err then (InvalidArgument, msg)
  else (Internal, msg).

End Definitions.

End serr.

(** ** Instances of the external parts of serr used in the examples *)

Module serr_samples.

(** Errors of other packages that are plain sentinels made by
    [errors.New], identified by their message: they wrap nothing, so
    [errors.Is] on them is equality; none is a JSON syntax error.  No
    UUID, time or other object occurs. *)
Definition sentinels : serr.Externals := {|
  serr.uuid_UUID := Empty_set;
  serr.time_Time := Empty_set;
  serr.Obj := Empty_set;
  serr.Ext := string;
  serr.UUID_String := fun _ => EmptyString;
  serr.Time_String := fun _ => EmptyString;
  serr.Obj_LogString := fun _ => EmptyString;
  serr.ext_Error := fun e => e;
  serr.ext_Is := String.eqb;
  serr.ext_As_SyntaxError := fun _ => false;
  serr.ErrNotPermitted := "not permitted"%string;
  serr.sql_ErrNoRows := "sql: no rows in result set"%string
|}.

(** Printers for the values that cannot occur with [sentinels] as
    objects. *)
Definition no_printers : @serr.Printers sentinels := {|
  serr.json_MarshalIndent := fun _ => None;
  serr.fmt_v := fun _ => EmptyString
|}.

(** [uuid.IsInvalidLengthError] on errors that are not of package
    uuid. *)
Definition not_a_length_error (err : @serr.error sentinels) : bool := false.

End serr_samples.

(* ===================================================================== *)
(** * Properties *)
(* ===================================================================== *)

Import Go maybe.

(** ** Running the store monad *)

Lemma bind_Returns {T A B : Type} (c : M T A) (k : A -> M T B) s a s' :
  c s = (Returns a, s') -> (c ≫= k) s = k a s'.
Proof. intros E. unfold mbind, M_bind. now rewrite E. Qed.

Lemma bind_Panics {T A B : Type} (c : M T A) (k : A -> M T B) s p s' :
  c s = (Panics p, s') -> (c ≫= k) s = (Panics p, s').
Proof. intros E. unfold mbind, M_bind. now rewrite E. Qed.

Lemma load_Some {T : Type} (s : store T) r o :
  objects s !! r = Some o -> load r s = (Returns o, s).
Proof. intros E. unfold load. now rewrite E. Qed.

Lemma store_Val_Some {T : Type} (s : store T) r o v :
  objects s !! r = Some o ->
  store_Val r v s =
    (Returns tt, mkStore (<[r := mkMaybe v (Valid o)]> (objects s)) (cells s)).
Proof. intros E. unfold store_Val. now rewrite E. Qed.

Lemma store_Valid_Some {T : Type} (s : store T) r o b :
  objects s !! r = Some o ->
  store_Valid r b s =
    (Returns tt, mkStore (<[r := mkMaybe (Val o) b]> (objects s)) (cells s)).
Proof. intros E. unfold store_Valid. now rewrite E. Qed.

Lemma lookup_updated {T : Type} (l : list (Maybe T)) r o o' :
  l !! r = Some o -> <[r := o']> l !! r = Some o'.
Proof.
  intros E. apply list_lookup_insert_eq. now apply lookup_lt_Some in E.
Qed.

Lemma update_twice {T : Type} (l : list (Maybe T)) r o o' :
  <[r := o']> (<[r := o]> l) = <[r := o']> l.
Proof. apply list_insert_insert_eq. Qed.

Lemma new_var_lookup {T : Type} (o : Maybe T) (s : store T) :
  objects (new_var o s).2 !! length (objects s) = Some o.
Proof. simpl. now apply list_lookup_middle. Qed.

(** ** Constructors and accessors *)

Section Accessors.
Context {T : Type} {zero_T : GoZero T}.

Lemma Unit_fields (x : T) : Val (Unit x) = x /\ Valid (Unit x) = true.
Proof. now split. Qed.

Lemma Nothing_empty : Valid (Nothing : Maybe T) = false.
Proof. reflexivity. Qed.

Lemma New_nil : New (None : option T) = Nothing.
Proof. reflexivity. Qed.

Lemma New_pointee (v : T) : New (Some v) = Unit v.
Proof. reflexivity. Qed.

Lemma GetOr_Unit (x d : T) : GetOr (Unit x) d = x.
Proof. reflexivity. Qed.

Lemma GetOr_empty (m : Maybe T) (d : T) : Valid m = false -> GetOr m d = d.
Proof. unfold GetOr. now intros ->. Qed.

Lemma GetOrZero_Unit (x : T) : GetOrZero (Unit x) = x.
Proof. reflexivity. Qed.

Lemma GetOrZero_empty (m : Maybe T) :
  Valid m = false -> GetOrZero m = zero_value.
Proof. unfold GetOrZero. now intros ->. Qed.

End Accessors.

(** The cases of [maybe_test.go] that need no codec. *)
Example TestGetOr :
  GetOr (Unit 1234 : Maybe (denote TInt)) 5678 = 1234 /\
  GetOr (Nothing : Maybe (denote TInt)) 5678 = 5678.
Proof. split; reflexivity. Qed.

Example TestNew :
  New (T := denote TInt) (Some 1234) = Unit 1234 /\
  New (T := denote TInt) None = Nothing.
Proof. split; reflexivity. Qed.

Example TestBind :
  Join (T := denote TInt) (Unit (Unit 1234)) = Unit 1234.
Proof. reflexivity. Qed.

(** ** Type assertions *)

Lemma cast_refl (t : GoType) (e : t = t) (v : denote t) : cast e v = v.
Proof.
  unfold cast. symmetry. apply (eq_rect_eq_dec GoType_eq_dec).
Qed.

Lemma type_assert_same (t : GoType) (v : denote t) :
  type_assert t (Box t v) = Returns v.
Proof.
  unfold type_assert. destruct (decide (t = t)) as [e | n].
  - now rewrite cast_refl.
  - now destruct n.
Qed.

Lemma type_assert_other (t : GoType) (x : any) :
  dynamic_type x <> Some t ->
  type_assert t x = Panics (TypeAssertionError t (dynamic_type x)).
Proof.
  intros N. destruct x as [| u v]; simpl in *; [reflexivity |].
  destruct (decide (u = t)) as [e | n]; [| reflexivity].
  subst u. now destruct N.
Qed.

(** ** Set: the type-erased setter *)

(** C1, counterexample.  Setting a [Maybe[int]] from a dynamic value of
    type [string] does not return at all, with or without an error: the
    type assertion panics. *)
Lemma Set_string_into_int_panics :
  let s : store (denote TInt) := mkStore [Nothing] [] in
  let x := Box TString "abcd"%string in
  dynamic_type x <> Some TInt /\
  Set_ TInt 0%nat x s = (Panics (TypeAssertionError TInt (Some TString)), s) /\
  ~ (exists u s', Set_ TInt 0%nat x s = (Returns u, s')).
Proof.
  cbv zeta. split; [discriminate |]. split; [reflexivity |].
  intros (u & s' & E). vm_compute in E. discriminate E.
Qed.

Lemma Set_mismatch (t : GoType) (s : store (denote t)) (m : ref) (x : any) :
  dynamic_type x <> Some t ->
  Set_ t m x s = (Panics (TypeAssertionError t (dynamic_type x)), s).
Proof.
  intros N. unfold Set_.
  apply bind_Panics. unfold eval. now rewrite type_assert_other.
Qed.

Lemma Set_match (t : GoType) (s : store (denote t)) (m : ref)
    (o : Maybe (denote t)) (v : denote t) :
  objects s !! m = Some o ->
  Set_ t m (Box t v) s =
    (Returns tt, mkStore (<[m := Unit v]> (objects s)) (cells s)).
Proof.
  intros Hm. unfold Set_.
  erewrite bind_Returns; [| unfold eval; now rewrite type_assert_same].
  erewrite bind_Returns; [| now apply store_Val_Some with (o := o)].
  erewrite store_Valid_Some; [| simpl; now apply lookup_updated with (o := o)].
  simpl. now rewrite update_twice.
Qed.

(** *** [Set] at a type argument of either kind *)

Lemma Set_arg_Concrete (t : GoType) (m : ref) (x : any) :
  Set_arg (Concrete t) m x = Set_ t m x.
Proof. reflexivity. Qed.

Lemma matches_Concrete (t : GoType) (x : any) :
  matches (Concrete t) x = true <-> dynamic_type x = Some t.
Proof.
  destruct x as [| u v]; simpl; [split; discriminate |].
  rewrite bool_decide_eq_true. split; congruence.
Qed.

Lemma matches_Interface (implemented_by : GoType -> bool) (x : any) :
  matches (Interface implemented_by) x = true <->
  exists u, dynamic_type x = Some u /\ implemented_by u = true.
Proof.
  destruct x as [| u v]; simpl.
  - split; [discriminate | intros (u & E & _); discriminate E].
  - split; [intros E; now exists u | intros (u' & E & H); congruence].
Qed.

Lemma type_assert_arg_matches (T : TypeArg) (x : any) :
  matches T x = true ->
  exists v : denote_arg T,
    to_any T v = x /\ has_type T v /\ type_assert_arg T x = Returns v.
Proof.
  destruct T as [t | implemented_by]; destruct x as [| u v]; simpl;
    try discriminate.
  - rewrite bool_decide_eq_true. intros ->. exists v.
    split; [reflexivity |]. split; [exact I |]. apply type_assert_same.
  - intros E. exists (Box u v). rewrite E. now split.
Qed.

Lemma type_assert_arg_mismatch (T : TypeArg) (x : any) :
  matches T x = false ->
  type_assert_arg T x = Panics (assertion_panic T x).
Proof.
  destruct T as [t | implemented_by]; destruct x as [| u v]; simpl;
    try reflexivity.
  - rewrite bool_decide_eq_false. intros N.
    apply (type_assert_other t (Box u v)). simpl. congruence.
  - now intros ->.
Qed.

Lemma Set_arg_Panics (T : TypeArg) (s : store (denote_arg T)) (m : ref)
    (x : any) (p : panic) :
  type_assert_arg T x = Panics p ->
  Set_arg T m x s = (Panics p, s).
Proof. intros E. unfold Set_arg. apply bind_Panics. now rewrite E. Qed.

Lemma Set_arg_Returns (T : TypeArg) (s : store (denote_arg T)) (m : ref)
    (o : Maybe (denote_arg T)) (x : any) (v : denote_arg T) :
  objects s !! m = Some o ->
  type_assert_arg T x = Returns v ->
  Set_arg T m x s =
    (Returns tt, mkStore (<[m := Unit v]> (objects s)) (cells s)).
Proof.
  intros Hm E. unfold Set_arg.
  erewrite bind_Returns; [| now rewrite E].
  erewrite bind_Returns; [| now apply store_Val_Some with (o := o)].
  erewrite store_Valid_Some; [| simpl; now apply lookup_updated with (o := o)].
  simpl. now rewrite update_twice.
Qed.

(** C1, amended.  [Set] has no result through which a mismatch could be
    reported.  The run-time type of [x] matches [T] when [x] is not nil
    and its dynamic type is [T], for a concrete [T], or implements [T],
    for an interface [T].  When it does not match, the call panics with
    a type-assertion error before anything is written, so the optional
    keeps both fields; when it matches, the payload becomes the value
    of type [T] held by [x] and the optional is marked present. *)
Theorem Set_panics_or_stores (T : TypeArg) (s : store (denote_arg T))
    (m : ref) (o : Maybe (denote_arg T)) (x : any) :
  objects s !! m = Some o ->
  (matches T x = false ->
     Set_arg T m x s = (Panics (assertion_panic T x), s)) /\
  (matches T x = true ->
     exists v : denote_arg T,
       to_any T v = x /\ has_type T v /\
       Set_arg T m x s =
         (Returns tt, mkStore (<[m := Unit v]> (objects s)) (cells s))) /\
  (forall t : GoType, T = Concrete t ->
     (matches T x = true <-> dynamic_type x = Some t) /\
     assertion_panic T x = TypeAssertionError t (dynamic_type x)) /\
  (forall implemented_by, T = Interface implemented_by ->
     (matches T x = true <->
        exists u, dynamic_type x = Some u /\ implemented_by u = true) /\
     assertion_panic T x = InterfaceAssertionError (dynamic_type x)).
Proof.
  intros Hm. split; [| split; [| split]].
  - intros N. apply Set_arg_Panics. now apply type_assert_arg_mismatch.
  - intros Y. destruct (type_assert_arg_matches T x Y) as (v & Hx & Hv & E).
    exists v. split; [exact Hx |]. split; [exact Hv |].
    now apply Set_arg_Returns with (o := o).
  - intros t ->. split; [apply matches_Concrete | reflexivity].
  - intros implemented_by ->. split; [apply matches_Interface | reflexivity].
Qed.

Lemma Set_panics_or_stores_witness :
  (let s : store (denote TInt) := mkStore [Unit 7] [] in
   Set_ TInt 0%nat nil_any s = (Panics (TypeAssertionError TInt None), s) /\
   Set_ TInt 0%nat (Box TString "abcd"%string) s =
     (Panics (TypeAssertionError TInt (Some TString)), s) /\
   exists v, Box TInt v = Box TInt 1234 /\
     Set_ TInt 0%nat (Box TInt 1234) s = (Returns tt, mkStore [Unit v] [])) /\
  (let T := Interface (fun _ => true) in
   let s : store (denote_arg T) := mkStore [Unit (Box TInt 7)] [] in
   Set_arg T 0%nat nil_any s = (Panics (InterfaceAssertionError None), s) /\
   exists v, v = Box TString "abcd"%string /\
     Set_arg T 0%nat (Box TString "abcd"%string) s =
       (Returns tt, mkStore [Unit v] [])) /\
  (let T := Interface (fun u => bool_decide (u = TString)) in
   let s : store (denote_arg T) := mkStore [Unit nil_any] [] in
   Set_arg T 0%nat (Box TInt 7) s =
     (Panics (InterfaceAssertionError (Some TInt)), s)).
Proof.
  cbv zeta. split; [| split].
  - pose proof (Set_panics_or_stores (Concrete TInt) (mkStore [Unit 7] [])
                  0%nat (Unit 7)) as H.
    split; [| split].
    + apply (proj1 (H nil_any eq_refl) eq_refl).
    + apply (proj1 (H (Box TString "abcd"%string) eq_refl) eq_refl).
    + destruct (proj1 (proj2 (H (Box TInt 1234) eq_refl)) eq_refl)
        as (v & Hx & _ & E).
      exists v. split; [exact Hx | exact E].
  - pose proof (Set_panics_or_stores (Interface (fun _ => true))
                  (mkStore [Unit (Box TInt 7)] []) 0%nat (Unit (Box TInt 7)))
      as H.
    split.
    + apply (proj1 (H nil_any eq_refl) eq_refl).
    + destruct (proj1 (proj2 (H (Box TString "abcd"%string) eq_refl)) eq_refl)
        as (v & Hx & _ & E).
      exists v. split; [exact Hx | exact E].
  - pose proof (Set_panics_or_stores
                  (Interface (fun u => bool_decide (u = TString)))
                  (mkStore [Unit nil_any] []) 0%nat (Unit nil_any)
                  (Box TInt 7) eq_refl) as H.
    apply (proj1 H). reflexivity.
Defined.

(** ** Get: the type-erased getter *)

(** C3, counterexample.  On an empty [Maybe[int]] the getter returns the
    nil interface, which is not the zero value [0] of [int] held in an
    interface. *)
Lemma Get_empty_int_is_nil :
  let s : store (denote TInt) := mkStore [Nothing] [] in
  Get TInt 0%nat s = (Returns (nil_any, false), s) /\
  Get TInt 0%nat s <> (Returns (Box TInt (zero_of TInt), false), s).
Proof. cbv zeta. split; [reflexivity | discriminate]. Qed.

(** C3, amended.  [Get] on [Unit(x)] returns [x] (held in an interface)
    paired with [true]; [Get] on an empty optional returns the nil
    interface paired with [false], whatever the payload type and the
    contents of the payload slot; in both cases the store, and so the
    optional, is left as it was. *)
Theorem Get_returns_value_or_nil (t : GoType) (s : store (denote t)) (m : ref)
    (o : Maybe (denote t)) :
  objects s !! m = Some o ->
  (forall x : denote t, o = Unit x ->
     Get t m s = (Returns (Box t x, true), s)) /\
  (Valid o = false -> Get t m s = (Returns (nil_any, false), s)).
Proof.
  intros Hm. unfold Get. rewrite (bind_Returns _ _ _ _ _ (load_Some _ _ _ Hm)).
  split.
  - now intros x ->.
  - now intros ->.
Qed.

Lemma Get_returns_value_or_nil_witness :
  let s : store (denote TInt) := mkStore [Unit 1234; mkMaybe 5 false] [] in
  Get TInt 0%nat s = (Returns (Box TInt 1234, true), s) /\
  Get TInt 1%nat s = (Returns (nil_any, false), s).
Proof.
  cbv zeta. split.
  - apply (proj1 (Get_returns_value_or_nil TInt
             (mkStore [Unit 1234; mkMaybe 5 false] []) 0%nat (Unit 1234)
             eq_refl) 1234 eq_refl).
  - apply (proj2 (Get_returns_value_or_nil TInt
             (mkStore [Unit 1234; mkMaybe 5 false] []) 1%nat (mkMaybe 5 false)
             eq_refl) eq_refl).
Defined.

(** ** UnmarshalJSON *)

Section UnmarshalJSON.
Context {T : Type}.
Variable json_Unmarshal : list Byte.byte -> T -> T * error.

Lemma UnmarshalJSON_null (m : ref) (s : store T) :
  UnmarshalJSON json_Unmarshal m null s = (Returns nil_error, s).
Proof.
  unfold UnmarshalJSON. now destruct (decide (null = null)).
Qed.

Lemma UnmarshalJSON_token (m : ref) (val : list Byte.byte) (s : store T)
    (o : Maybe T) :
  val <> null ->
  objects s !! m = Some o ->
  UnmarshalJSON json_Unmarshal m val s =
    (Returns (json_Unmarshal val (Val o)).2,
     mkStore (<[m := mkMaybe (json_Unmarshal val (Val o)).1 true]> (objects s))
             (cells s)).
Proof.
  intros Hval Hm. unfold UnmarshalJSON.
  destruct (decide (val = null)) as [E | _]; [contradiction |].
  erewrite bind_Returns; [| now apply store_Valid_Some with (o := o)].
  erewrite bind_Returns;
    [| apply load_Some; simpl; now apply lookup_updated with (o := o)].
  simpl. destruct (json_Unmarshal val (Val o)) as [v err]. simpl.
  erewrite bind_Returns;
    [| eapply store_Val_Some; simpl; now apply lookup_updated with (o := o)].
  simpl. now rewrite update_twice.
Qed.

End UnmarshalJSON.

(** C2, counterexample.  Decoding the null token into an optional that
    holds [true] leaves it holding [true]. *)
Lemma UnmarshalJSON_null_keeps_value :
  let s : store bool := mkStore [Unit true] [] in
  exists s',
    UnmarshalJSON samples.bool_Unmarshal 0%nat null s = (Returns nil_error, s') /\
    Valid <$> objects s' !! 0%nat = Some true.
Proof. cbv zeta. eexists. split; reflexivity. Qed.

(** C2, amended.  Decoding the JSON null token is a no-op that reports
    no error: the optional keeps its presence flag and its payload, so
    an empty optional stays empty and one that holds a value keeps
    holding it. *)
Theorem UnmarshalJSON_null_is_noop {T : Type}
    (json_Unmarshal : list Byte.byte -> T -> T * error) (m : ref) (s : store T) :
  UnmarshalJSON json_Unmarshal m null s = (Returns nil_error, s).
Proof. apply UnmarshalJSON_null. Qed.

(** C10.  When the token is not the null literal and decoding the
    payload fails, the error of the decoder is returned and the optional
    is left marked present (its payload slot holds whatever the decoder
    left there). *)
Theorem UnmarshalJSON_failure_marks_present {T : Type}
    (json_Unmarshal : list Byte.byte -> T -> T * error)
    (m : ref) (val : list Byte.byte) (s : store T) (o : Maybe T)
    (v : T) (msg : string) :
  val <> null ->
  objects s !! m = Some o ->
  json_Unmarshal val (Val o) = (v, Err msg) ->
  exists s',
    UnmarshalJSON json_Unmarshal m val s = (Returns (Err msg), s') /\
    objects s' !! m = Some (mkMaybe v true) /\
    Valid <$> objects s' !! m = Some true.
Proof.
  intros Hval Hm Hdec. eexists. split.
  - rewrite (UnmarshalJSON_token _ _ _ _ _ Hval Hm), Hdec. reflexivity.
  - simpl. rewrite (lookup_updated _ _ _ _ Hm). now split.
Qed.

Lemma UnmarshalJSON_failure_marks_present_witness :
  let s : store bool := mkStore [Nothing] [] in
  let val := [Byte.x74; Byte.x72; Byte.x75] in
  exists s',
    UnmarshalJSON samples.bool_Unmarshal 0%nat val s =
      (Returns (Err "invalid JSON boolean"), s') /\
    objects s' !! 0%nat = Some (mkMaybe false true) /\
    Valid <$> objects s' !! 0%nat = Some true.
Proof.
  cbv zeta.
  apply (UnmarshalJSON_failure_marks_present samples.bool_Unmarshal 0%nat
           [Byte.x74; Byte.x72; Byte.x75] (mkStore [Nothing] []) Nothing).
  - discriminate.
  - reflexivity.
  - reflexivity.
Defined.

(** ** Scan *)

(** C9.  When the scan of the local [sql.Null[T]] fails, [Scan] returns
    that error and writes nothing: both fields of the optional are as
    before the call. *)
Theorem Scan_failure_is_atomic {T : Type} {zero_T : GoZero T}
    (Null_Scan : Null T -> any -> Null T * error)
    (m : ref) (val : any) (s : store T) (msg : string) :
  (Null_Scan (mkNull zero_value false) val).2 = Err msg ->
  Scan Null_Scan m val s = (Returns (Err msg), s).
Proof.
  intros E. unfold Scan.
  destruct (Null_Scan (mkNull zero_value false) val) as [v err].
  simpl in E. subst err. reflexivity.
Qed.

Lemma Scan_failure_is_atomic_witness :
  let s : store (denote TInt64) := mkStore [Unit 1234] [] in
  Scan samples.Null_int64_Scan 0%nat (Box TBool true) s =
    (Returns (Err "unsupported Scan"), s).
Proof.
  cbv zeta.
  apply (Scan_failure_is_atomic (T := denote TInt64) samples.Null_int64_Scan
           0%nat (Box TBool true) (mkStore [Unit 1234] []) "unsupported Scan").
  reflexivity.
Defined.

(** ** The combinators *)

Section Combinators.
Context {T U W : Type} {zero_T : GoZero T} {zero_U : GoZero U}
        {zero_W : GoZero W}.

Lemma Fmap_empty (f : T -> U) (m : Maybe T) :
  Valid m = false -> Fmap f m = Nothing.
Proof. unfold Fmap. now intros ->. Qed.

Lemma Fmap_Unit (f : T -> U) (x : T) : Fmap f (Unit x) = Unit (f x).
Proof. reflexivity. Qed.

Lemma Fmap_present (f : T -> U) (m : Maybe T) :
  Valid m = true -> Fmap f m = Unit (f (Val m)).
Proof. unfold Fmap. now intros ->. Qed.

Lemma Fmap_Valid (f : T -> U) (m : Maybe T) : Valid (Fmap f m) = Valid m.
Proof. unfold Fmap. now destruct (Valid m). Qed.

Lemma Fmap_compose (f : U -> W) (g : T -> U) (m : Maybe T) :
  Fmap (fun x => f (g x)) m = Fmap f (Fmap g m).
Proof. unfold Fmap. now destruct (Valid m). Qed.

Lemma Fmap_Identity (m : Maybe T) :
  Fmap Identity m = if Valid m then m else Nothing.
Proof. unfold Fmap, Identity. now destruct m as [v []]. Qed.

Lemma FallibleFmap_empty (f : T -> U * error) (m : Maybe T) :
  Valid m = false -> FallibleFmap f m = (Nothing, nil_error).
Proof. unfold FallibleFmap. now intros ->. Qed.

Lemma FallibleFmap_error (f : T -> U * error) (m : Maybe T) msg :
  Valid m = true -> (f (Val m)).2 = Err msg ->
  FallibleFmap f m = (Nothing, Err msg).
Proof.
  unfold FallibleFmap. intros -> E. simpl.
  destruct (f (Val m)) as [y err]. simpl in E. now subst err.
Qed.

Lemma FallibleFmap_success (f : T -> U * error) (m : Maybe T) y :
  Valid m = true -> f (Val m) = (y, nil_error) ->
  FallibleFmap f m = (Unit y, nil_error).
Proof. unfold FallibleFmap. now intros -> ->. Qed.

Lemma Bind_Unit (m : Maybe T) :
  Bind Unit m = if Valid m then m else Nothing.
Proof. unfold Bind. now destruct m as [v []]. Qed.

Lemma Bind_empty (f : T -> Maybe U) (m : Maybe T) :
  Valid m = false -> Bind f m = Nothing.
Proof. unfold Bind. now intros ->. Qed.

Lemma Join_Unit_Unit (x : T) : Join (Unit (Unit x)) = Unit x.
Proof. reflexivity. Qed.

End Combinators.

(** C5, counterexample.  On an empty input the failing function is not
    called and no error is returned. *)
Lemma FallibleFmap_empty_no_error :
  let f : denote TInt -> denote TString * error :=
    fun _ => (EmptyString, Err "unsupported operation") in
  (forall x, is_nil_error (f x).2 = false) /\
  FallibleFmap f Nothing = (Nothing, nil_error) /\
  is_nil_error (FallibleFmap f Nothing).2 = true.
Proof. cbv zeta. split; [intros x | split]; reflexivity. Qed.

(** C5, amended.  For a function [f] that always returns an error:
    on a present input, [FallibleFmap(f, m)] returns an empty optional
    together with the error [f] returned for the payload; on an empty
    input, it returns an empty optional and no error ([f] is not
    called). *)
Theorem FallibleFmap_failing_function {T U : Type} {zero_U : GoZero U}
    (f : T -> U * error) (m : Maybe T) :
  (forall x, is_nil_error (f x).2 = false) ->
  (Valid m = true ->
     FallibleFmap f m = (Nothing, (f (Val m)).2) /\
     is_nil_error (FallibleFmap f m).2 = false) /\
  (Valid m = false -> FallibleFmap f m = (Nothing, nil_error)).
Proof.
  intros Hf. split.
  - intros Hm. specialize (Hf (Val m)).
    destruct ((f (Val m)).2) as [| msg] eqn:E; [discriminate |].
    rewrite (FallibleFmap_error f m msg Hm E). now split.
  - apply FallibleFmap_empty.
Qed.

Lemma FallibleFmap_failing_function_witness :
  let f : denote TInt -> denote TString * error :=
    fun _ => (EmptyString, Err "unsupported operation") in
  FallibleFmap f (Unit 1234) = (Nothing, Err "unsupported operation") /\
  FallibleFmap f Nothing = (Nothing, nil_error).
Proof.
  cbv zeta.
  pose proof (FallibleFmap_failing_function
                (T := denote TInt) (U := denote TString)
                (fun _ => (EmptyString, Err "unsupported operation")))
    as H.
  split.
  - apply (proj1 (proj1 (H (Unit 1234) (fun _ => eq_refl)) eq_refl)).
  - apply (proj2 (H Nothing (fun _ => eq_refl)) eq_refl).
Defined.

(** C7.  The functor laws for [Fmap].  For every optional [m],
    [Fmap(Identity, m)] is the same optional as [m]: empty when [m] is
    empty, present with the same payload when [m] is present (and the
    same struct, field by field, whenever [m] is present or its unused
    payload slot holds the zero value).  For all [f] and [g] and every
    [m], [Fmap] of the composition and the composition of the [Fmap]s
    give the same struct.  [Fmap] on an empty input yields the empty
    [Maybe[U]{}], and on [Unit(x)] it yields [Unit(f(x))]. *)
Theorem Fmap_functor_laws {T U W : Type} {zero_T : GoZero T}
    {zero_U : GoZero U} {zero_W : GoZero W}
    (f : U -> W) (g : T -> U) (m : Maybe T) (x : T) :
  same_optional (Fmap Identity m) m /\
  (Valid m = true \/ Val m = zero_value -> Fmap Identity m = m) /\
  Fmap (fun y => f (g y)) m = Fmap f (Fmap g m) /\
  same_optional (Fmap (fun y => f (g y)) m) (Fmap f (Fmap g m)) /\
  (Valid m = false -> Fmap g m = Nothing) /\
  Fmap g (Unit x) = Unit (g x).
Proof.
  split; [| split; [| split; [| split; [| split]]]].
  - rewrite Fmap_Identity. destruct m as [v []]; split; simpl; congruence.
  - rewrite Fmap_Identity. destruct m as [v []]; simpl; [reflexivity |].
    intros [E | ->]; [discriminate | reflexivity].
  - apply Fmap_compose.
  - rewrite Fmap_compose. now split.
  - apply Fmap_empty.
  - apply Fmap_Unit.
Qed.

Lemma Fmap_functor_laws_witness :
  same_optional (Fmap Identity (mkMaybe 5 false : Maybe (denote TInt)))
                (mkMaybe 5 false) /\
  Fmap Identity (Unit 1234 : Maybe (denote TInt)) = Unit 1234 /\
  Fmap Identity (Nothing : Maybe (denote TInt)) = Nothing.
Proof.
  split; [| split].
  - apply (proj1 (Fmap_functor_laws (T := denote TInt) (U := denote TInt)
                    (W := denote TInt) Identity Identity (mkMaybe 5 false) 0)).
  - apply (proj1 (proj2 (Fmap_functor_laws (T := denote TInt)
                           (U := denote TInt) (W := denote TInt)
                           Identity Identity (Unit 1234) 0))).
    now left.
  - apply (proj1 (proj2 (Fmap_functor_laws (T := denote TInt)
                           (U := denote TInt) (W := denote TInt)
                           Identity Identity Nothing 0))).
    now right.
Defined.

(** ** Value: the outbound database conversion *)

(** *** [int64(v)] *)

Lemma to_int64_fits (z : Z) :
  - 2 ^ 63 <= z < 2 ^ 63 -> to_int64 z = z.
Proof.
  intros Hz. unfold to_int64. rewrite Z.mod_small; lia.
Qed.

Lemma to_int64_wraps (z : Z) :
  2 ^ 63 <= z < 2 ^ 64 -> to_int64 z = z - 2 ^ 64.
Proof.
  intros Hz. unfold to_int64.
  replace (z + 2 ^ 63) with (z - 2 ^ 63 + 1 * 2 ^ 64) by lia.
  rewrite Z.mod_add by lia. rewrite Z.mod_small; lia.
Qed.

Lemma in_range_bounds (t : GoType) (z : Z) :
  in_range t z -> - 2 ^ 63 <= z < 2 ^ 64.
Proof.
  unfold in_range.
  destruct t; simpl; try contradiction; unfold min_int, max_int, int_size; lia.
Qed.

Lemma in_range_fits_int64 (t : GoType) (z : Z) :
  in_range t z -> t <> TUint -> t <> TUint64 -> - 2 ^ 63 <= z < 2 ^ 63.
Proof.
  unfold in_range.
  destruct t; simpl; try contradiction; try congruence;
    unfold min_int, max_int, int_size; lia.
Qed.

(** *** [float64(v)] *)

Lemma iter_xO_mul (m k : positive) :
  Z.pos (Pos.iter xO m k) = Z.pos m * 2 ^ Z.pos k.
Proof.
  induction k as [| k IH] using Pos.peano_ind.
  - simpl. lia.
  - rewrite Pos.iter_succ, Pos2Z.inj_xO, IH, Pos2Z.inj_succ, Z.pow_succ_r; lia.
Qed.

Lemma iter_xO_digits (m k : positive) :
  Z.pos (digits2_pos (Pos.iter xO m k)) = Z.pos (digits2_pos m) + Z.pos k.
Proof.
  induction k as [| k IH] using Pos.peano_ind.
  - simpl. lia.
  - rewrite Pos.iter_succ. simpl digits2_pos.
    rewrite Pos2Z.inj_succ, IH. lia.
Qed.

Lemma float32_bounds (m : positive) (e : Z) :
  bounded 24 128 m e = true ->
  Z.pos (digits2_pos m) <= 24 /\ -149 <= e <= 104.
Proof.
  unfold bounded, canonical_mantissa, fexp, emin.
  intros H. apply andb_prop in H as [H1 H2].
  apply Z.eqb_eq in H1. apply Z.leb_le in H2. lia.
Qed.

(** A mantissa that is already canonical is neither shifted nor
    rounded. *)
Lemma shr_fexp_exact (prec emax : Z) (m : positive) (e : Z) :
  fexp prec emax (Z.pos (digits2_pos m) + e) = e ->
  shr_fexp prec emax (Z.pos m) e loc_Exact =
    ({| shr_m := Z.pos m; shr_r := false; shr_s := false |}, e).
Proof.
  intros H. unfold shr_fexp. simpl Zdigits2.
  replace (fexp prec emax (Z.pos (digits2_pos m) + e) - e) with 0 by lia.
  reflexivity.
Qed.

Lemma binary_round_aux_exact (prec emax : Z) (s : bool) (m : positive) (e : Z) :
  fexp prec emax (Z.pos (digits2_pos m) + e) = e ->
  e <= emax - prec ->
  binary_round_aux prec emax s (Z.pos m) e loc_Exact = S754_finite s m e.
Proof.
  intros H L. unfold binary_round_aux.
  rewrite (shr_fexp_exact _ _ _ _ H). simpl.
  rewrite (shr_fexp_exact _ _ _ _ H). simpl.
  destruct (Z.leb_spec e (emax - prec)); [reflexivity | lia].
Qed.

(** Widening a finite [float32] only renormalises it: the mantissa is
    shifted left by [k] bits and the exponent lowered by [k]. *)
Lemma to_float64_finite (s : bool) (m : positive) (e : Z) :
  bounded 24 128 m e = true ->
  exists k : positive,
    Z.pos k = e - fexp 53 1024 (Z.pos (digits2_pos m) + e) /\
    to_float64 (S754_finite s m e) =
      S754_finite s (Pos.iter xO m k) (e - Z.pos k).
Proof.
  intros Hb. apply float32_bounds in Hb as [Hd He].
  set (d := Z.pos (digits2_pos m)) in *.
  assert (Hlt : fexp 53 1024 (d + e) < e) by (unfold fexp, emin; lia).
  destruct (e - fexp 53 1024 (d + e)) as [| k | k] eqn:Ek; try lia.
  exists k. split; [reflexivity |].
  unfold to_float64, binary_round, shl_align. fold d.
  replace (fexp 53 1024 (d + e) - e) with (Z.neg k) by lia.
  replace (fexp 53 1024 (d + e)) with (e - Z.pos k) by lia.
  apply binary_round_aux_exact; [| lia].
  rewrite iter_xO_digits. fold d.
  replace (d + Z.pos k + (e - Z.pos k)) with (d + e) by lia. lia.
Qed.

Lemma to_float64_exact (f : spec_float) :
  is_float32 f = true ->
  is_float64 (to_float64 f) = true /\ same_number f (to_float64 f).
Proof.
  unfold is_float32, is_float64.
  destruct f as [s | s | | s m e]; simpl;
    try (intros _; split; reflexivity || exact I).
  intros Hb. destruct (to_float64_finite s m e Hb) as (k & Hk & E).
  simpl in E. rewrite E. clear E.
  apply float32_bounds in Hb as [Hd He].
  split.
  - simpl. unfold bounded, canonical_mantissa.
    rewrite iter_xO_digits.
    replace (Z.pos (digits2_pos m) + Z.pos k + (e - Z.pos k))
      with (Z.pos (digits2_pos m) + e) by lia.
    apply andb_true_intro. split.
    + apply Z.eqb_eq. lia.
    + apply Z.leb_le. unfold fexp, emin in *. lia.
  - simpl. intros K H1 H2. unfold scaled.
    replace (e + K) with (Z.pos k + (e - Z.pos k + K)) by lia.
    rewrite Z.pow_add_r by lia.
    rewrite iter_xO_mul. unfold cond_Zopp. destruct s; ring.
Qed.

(** [float32(1.5)] widens to [float64(1.5)]. *)
Example to_float64_one_and_a_half :
  is_float32 (S754_finite false 12582912 (-23)) = true /\
  to_float64 (S754_finite false 12582912 (-23)) =
    S754_finite false 6755399441055744 (-52).
Proof. split; reflexivity. Qed.

(** *** The conversion *)

Section ValueProperties.
Variable Valuer : string -> forall u : GoType, option (denote u -> any * error).

Lemma Value_empty (t : GoType) (m : Maybe (denote t)) :
  Valid m = false -> Value Valuer t m = (nil_any, nil_error).
Proof. unfold Value. now intros ->. Qed.

Lemma Value_integer (t : GoType) (m : Maybe (denote t)) (z : Z) :
  Valid m = true ->
  int_value t (Val m) = Some z ->
  in_range t z ->
  Value Valuer t m = (Box TInt64 (to_int64 z), nil_error).
Proof.
  unfold Value. intros -> Hz Hr. simpl.
  destruct t; simpl in *; try discriminate; injection Hz as ->;
    try reflexivity.
  (* [int64] has no case of its own: the value is returned as it is *)
  rewrite to_int64_fits; [reflexivity |].
  apply (in_range_fits_int64 TInt64); [assumption | discriminate ..].
Qed.

Lemma Value_defined (name : string) (u : GoType)
    (m : Maybe (denote (TNamed name u))) :
  Valid m = true ->
  Value Valuer (TNamed name u) m =
    match Valuer name u with
    | Some value => value (Val m)
    | None => (Box (TNamed name u) (Val m), nil_error)
    end.
Proof. unfold Value. intros ->. simpl. now destruct (Valuer name u). Qed.

Lemma Value_float32 (m : Maybe (denote TFloat32)) :
  Valid m = true ->
  Value Valuer TFloat32 m = (Box TFloat64 (to_float64 (Val m)), nil_error).
Proof. unfold Value. now intros ->. Qed.

End ValueProperties.

(** C4, counterexample.  [Unit(uint64(1 << 63))] is converted to the
    [int64] value [-(1 << 63)], which is not the original value; and a
    value of the integer type [type Celsius int] is not converted to
    [int64] at all. *)
Lemma Value_uint64_high_bit :
  (let m : Maybe (denote TUint64) := Unit (2 ^ 63) in
   in_range TUint64 (2 ^ 63) /\
   Value samples.no_Valuer TUint64 m = (Box TInt64 (- 2 ^ 63), nil_error) /\
   - 2 ^ 63 <> 2 ^ 63) /\
  (let m : Maybe (denote (TNamed "Celsius" TInt)) := Unit 7 in
   dynamic_type (Value samples.no_Valuer (TNamed "Celsius" TInt) m).1 =
     Some (TNamed "Celsius" TInt) /\
   TNamed "Celsius" TInt <> TInt64).
Proof.
  cbv zeta. split; [split; [| split] | split].
  - unfold in_range, min_int, max_int. simpl. lia.
  - reflexivity.
  - lia.
  - reflexivity.
  - discriminate.
Qed.

(** C4, amended.  For a present optional whose payload type is a
    predeclared integer type, [Value()] returns an [int64] and no error:
    the original value when it is at most [1<<63 - 1], which is always
    the case for every integer type other than [uint] and [uint64]; and
    the original value minus [1<<64] (the same 64 bits read as a signed
    number) for the [uint] and [uint64] values from [1<<63] up.  A
    present payload of a defined type is passed to its own [Value]
    method if it has one and is returned as it is otherwise.  A present
    [float32] payload maps to the [float64] that denotes the same
    number.  An empty optional maps to the nil [driver.Value] with no
    error. *)
Theorem Value_converts
    (Valuer : string -> forall u : GoType, option (denote u -> any * error))
    (t : GoType) (m : Maybe (denote t)) (f : Maybe (denote TFloat32))
    (name : string) (u : GoType) (d : Maybe (denote (TNamed name u))) :
  (forall z : Z,
     Valid m = true -> int_value t (Val m) = Some z -> in_range t z ->
     (z < 2 ^ 63 -> Value Valuer t m = (Box TInt64 z, nil_error)) /\
     (2 ^ 63 <= z -> Value Valuer t m = (Box TInt64 (z - 2 ^ 64), nil_error)) /\
     (t <> TUint -> t <> TUint64 -> z < 2 ^ 63)) /\
  (Valid d = true ->
     Value Valuer (TNamed name u) d =
       match Valuer name u with
       | Some value => value (Val d)
       | None => (Box (TNamed name u) (Val d), nil_error)
       end) /\
  (Valid f = true -> is_float32 (Val f) = true ->
     exists g : spec_float,
       Value Valuer TFloat32 f = (Box TFloat64 g, nil_error) /\
       is_float64 g = true /\ same_number (Val f) g) /\
  (Valid m = false -> Value Valuer t m = (nil_any, nil_error)).
Proof.
  split; [| split; [| split]].
  - intros z Hm Hz Hr.
    rewrite (Value_integer Valuer t m z Hm Hz Hr).
    pose proof (in_range_bounds t z Hr) as Hb.
    split; [| split].
    + intros Hlt. rewrite to_int64_fits; [reflexivity | lia].
    + intros Hge. rewrite to_int64_wraps; [reflexivity | lia].
    + intros H1 H2. apply (in_range_fits_int64 t z Hr H1 H2).
  - apply Value_defined.
  - intros Hf H32. exists (to_float64 (Val f)).
    rewrite (Value_float32 Valuer f Hf).
    split; [reflexivity |]. now apply to_float64_exact.
  - apply Value_empty.
Qed.

Lemma Value_converts_witness :
  Value samples.no_Valuer TUint8 (Unit 7) = (Box TInt64 7, nil_error) /\
  Value samples.no_Valuer TUint64 (Unit (2 ^ 64 - 1)) =
    (Box TInt64 (-1), nil_error) /\
  (exists g : spec_float,
     Value samples.no_Valuer TFloat32 (Unit (S754_finite false 12582912 (-23))) =
       (Box TFloat64 g, nil_error) /\
     is_float64 g = true /\
     same_number (S754_finite false 12582912 (-23)) g) /\
  Value samples.no_Valuer TString (Nothing : Maybe (denote TString)) =
    (nil_any, nil_error).
Proof.
  pose proof (fun t m f =>
                Value_converts samples.no_Valuer t m f "Celsius" TInt Nothing)
    as H.
  split; [| split; [| split]].
  - refine (proj1 (proj1 (H TUint8 (Unit 7) Nothing) 7 eq_refl eq_refl _) _).
    + unfold in_range, min_int, max_int. simpl. lia.
    + lia.
  - refine (proj1 (proj2 (proj1 (H TUint64 (Unit (2 ^ 64 - 1)) Nothing)
                            (2 ^ 64 - 1) eq_refl eq_refl _)) _).
    + unfold in_range, min_int, max_int. simpl. lia.
    + lia.
  - exact (proj1 (proj2 (proj2 (H TFloat32 Nothing
                           (Unit (S754_finite false 12582912 (-23))))))
                 eq_refl eq_refl).
  - exact (proj2 (proj2 (proj2 (H TString Nothing Nothing))) eq_refl).
Defined.

(** ** The JSON round trip *)

Lemma bool_codec_round_trips :
  samples.codec_round_trips samples.bool_Marshal samples.bool_Unmarshal.
Proof. intros []; eexists; split; reflexivity. Qed.

Lemma ptr_bool_codec_round_trips :
  samples.codec_round_trips samples.ptr_bool_Marshal samples.ptr_bool_Unmarshal.
Proof. intros [[] |]; eexists; split; reflexivity. Qed.

Section RoundTrip.
Context {T : Type} {zero_T : GoZero T}.
Variable json_Unmarshal : list Byte.byte -> T -> T * error.

Lemma decode_fresh_null (s : store T) :
  samples.decode_fresh json_Unmarshal null s =
    (Returns (nil_error, Nothing), (new_var zero_value s).2).
Proof.
  unfold samples.decode_fresh.
  erewrite bind_Returns; [| reflexivity].
  erewrite bind_Returns; [| apply UnmarshalJSON_null].
  erewrite bind_Returns; [| apply load_Some, new_var_lookup].
  reflexivity.
Qed.

Lemma decode_fresh_token (val : list Byte.byte) (s : store T) :
  val <> null ->
  exists s',
    samples.decode_fresh json_Unmarshal val s =
      (Returns ((json_Unmarshal val zero_value).2,
                mkMaybe (json_Unmarshal val zero_value).1 true), s').
Proof.
  intros Hval. eexists. unfold samples.decode_fresh.
  erewrite bind_Returns; [| reflexivity].
  erewrite bind_Returns;
    [| apply (UnmarshalJSON_token _ _ _ _ _ Hval (new_var_lookup _ s))].
  erewrite bind_Returns;
    [| apply load_Some; cbn [objects];
       apply (lookup_updated _ _ _ _ (new_var_lookup zero_value s))].
  reflexivity.
Qed.

End RoundTrip.

(** C6, counterexample.  The pointer type [*bool] round-trips through
    its codec, nil included, yet the present optional holding a nil
    pointer does not: its payload is encoded as the null token, which
    decodes to an empty optional. *)
Lemma JSON_round_trip_fails :
  let m : Maybe (option bool) := Unit None in
  samples.codec_round_trips samples.ptr_bool_Marshal samples.ptr_bool_Unmarshal /\
  MarshalJSON samples.ptr_bool_Marshal m = (null, nil_error) /\
  (samples.decode_fresh samples.ptr_bool_Unmarshal null (mkStore [] [])).1 =
    Returns (nil_error, mkMaybe None false) /\
  ~ same_optional (mkMaybe None false) m.
Proof.
  cbv zeta. split; [apply ptr_bool_codec_round_trips |].
  split; [reflexivity |]. split; [reflexivity |].
  intros [E _]. discriminate E.
Qed.

(** C6, amended.  Provided the payload type round-trips through the
    codec, encoding any optional [m] succeeds and gives the null token
    for an empty [m] and the encoding of the payload for a present one;
    decoding these bytes into a freshly constructed optional succeeds.
    The result is the same optional as [m] (empty like [m], or present
    with the payload of [m]; for a present [m] the same struct) when
    [m] is empty or the encoding of its payload is not the null token.
    A present [m] whose payload is encoded as the null token comes back
    as the empty [Maybe[T]{}]. *)
Theorem JSON_round_trip {T : Type} {zero_T : GoZero T}
    (json_Marshal : T -> list Byte.byte * error)
    (json_Unmarshal : list Byte.byte -> T -> T * error)
    (m : Maybe T) (s : store T) :
  samples.codec_round_trips json_Marshal json_Unmarshal ->
  exists (b : list Byte.byte) (o : Maybe T) (s' : store T),
    MarshalJSON json_Marshal m = (b, nil_error) /\
    b = (if Valid m then (json_Marshal (Val m)).1 else null) /\
    samples.decode_fresh json_Unmarshal b s = (Returns (nil_error, o), s') /\
    (Valid m = false \/ (json_Marshal (Val m)).1 <> null ->
       same_optional o m) /\
    (Valid m = true -> (json_Marshal (Val m)).1 <> null -> o = m) /\
    (Valid m = false \/ (json_Marshal (Val m)).1 = null -> o = Nothing).
Proof.
  intros Hcodec. destruct m as [v [|]]; unfold MarshalJSON; simpl.
  - destruct (Hcodec v) as (b & Hb & Hd).
    exists b. rewrite Hb. simpl.
    destruct (decide (b = null)) as [-> | Hne].
    + exists Nothing. eexists. split; [reflexivity |]. split; [reflexivity |].
      split; [apply decode_fresh_null |].
      split; [intros [F | F]; [discriminate | contradiction] |].
      split; [contradiction | reflexivity].
    + destruct (decode_fresh_token json_Unmarshal b s Hne) as (s' & E).
      rewrite Hd in E. simpl in E.
      exists (mkMaybe v true), s'. split; [reflexivity |].
      split; [reflexivity |]. split; [exact E |].
      split; [now split |]. split; [reflexivity |].
      intros [F | F]; [discriminate | contradiction].
  - exists null, Nothing. eexists. split; [reflexivity |].
    split; [reflexivity |]. split; [apply decode_fresh_null |].
    split; [intros _; split; [reflexivity | discriminate] |].
    split; [discriminate | reflexivity].
Qed.

Lemma JSON_round_trip_witness :
  exists (b : list Byte.byte) (o : Maybe bool) (s' : store bool),
    MarshalJSON samples.bool_Marshal (Unit true) = (b, nil_error) /\
    b = samples.json_true /\
    samples.decode_fresh samples.bool_Unmarshal b (mkStore [] []) =
      (Returns (nil_error, o), s') /\
    o = Unit true.
Proof.
  destruct (JSON_round_trip samples.bool_Marshal samples.bool_Unmarshal
              (Unit true) (mkStore [] []))
    as (b & o & s' & Hb & Hb' & Hd & _ & Ho & _).
  - intros []; eexists; split; reflexivity.
  - exists b, o, s'. split; [exact Hb |]. split; [exact Hb' |].
    split; [exact Hd |]. apply Ho; [reflexivity | discriminate].
Defined.

(** ** The bridge and the storage behind it *)

Section Frame.
Context {T : Type}.
Implicit Types (s : store T) (r j : ref).

Lemma store_Val_frame r (v : T) s u s' j :
  store_Val r v s = (u, s') -> j <> r ->
  objects s' !! j = objects s !! j.
Proof.
  unfold store_Val. intros E Hne.
  destruct (objects s !! r); inversion E; subst; simpl;
    [now apply list_lookup_insert_ne | reflexivity].
Qed.

Lemma store_Valid_frame r (b : bool) s u s' j :
  store_Valid r b s = (u, s') -> j <> r ->
  objects s' !! j = objects s !! j.
Proof.
  unfold store_Valid. intros E Hne.
  destruct (objects s !! r); inversion E; subst; simpl;
    [now apply list_lookup_insert_ne | reflexivity].
Qed.

Lemma load_addr_state (a : addr) s (u : outcome T) s' :
  load_addr a s = (u, s') -> s' = s.
Proof.
  unfold load_addr. intros E.
  destruct a; [destruct (objects s !! r) | destruct (cells s !! c)];
    now inversion E.
Qed.

Lemma SetValid_frame r s u s' j :
  SetValid r s = (u, s') -> j <> r -> objects s' !! j = objects s !! j.
Proof. apply store_Valid_frame. Qed.

Lemma SetPtr_frame r (ptr : pointer) s u s' j :
  SetPtr r ptr s = (u, s') -> j <> r -> objects s' !! j = objects s !! j.
Proof.
  unfold SetPtr. intros E Hne. destruct ptr as [a |].
  - unfold mbind, M_bind in E.
    destruct (store_Valid r true s) as [[[] | p] s1] eqn:E1.
    + rewrite <- (store_Valid_frame _ _ _ _ _ j E1 Hne).
      destruct (load_addr a s1) as [[v | p] s2] eqn:E2;
        apply load_addr_state in E2; subst s2.
      * now apply (store_Val_frame _ _ _ _ _ j E).
      * now inversion E.
    + inversion E; subst. now apply (store_Valid_frame _ _ _ _ _ j E1).
  - now apply (store_Valid_frame _ _ _ _ _ j E).
Qed.

Lemma new_var_old (o : Maybe T) s j (o' : Maybe T) :
  objects s !! j = Some o' -> objects (new_var o s).2 !! j = Some o'.
Proof. intros E. simpl. now apply lookup_app_l_Some. Qed.

Lemma lookup_in_store s j (o : Maybe T) :
  objects s !! j = Some o -> (j < length (objects s))%nat.
Proof. apply lookup_lt_Some. Qed.

End Frame.

Section Setters.
Context {T : Type}.
Implicit Types (s : store T) (m : ref) (o : Maybe T).

Lemma SetValid_Some s m o :
  objects s !! m = Some o ->
  SetValid m s =
    (Returns tt, mkStore (<[m := mkMaybe (Val o) true]> (objects s)) (cells s)).
Proof. apply store_Valid_Some. Qed.

Lemma SetPtr_nil s m o :
  objects s !! m = Some o ->
  SetPtr m None s =
    (Returns tt, mkStore (<[m := mkMaybe (Val o) false]> (objects s)) (cells s)).
Proof. apply store_Valid_Some. Qed.

Lemma load_addr_after_store_Valid m (b : bool) s s' (a : addr) (v : T) :
  store_Valid m b s = (Returns tt, s') ->
  load_addr a s = (Returns v, s) ->
  load_addr a s' = (Returns v, s').
Proof.
  unfold store_Valid, load_addr. intros E L.
  destruct (objects s !! m) as [o |] eqn:Hm; inversion E; subst; clear E.
  destruct a as [r | c]; cbn [objects cells].
  - destruct (decide (r = m)) as [-> | Hne].
    + rewrite (lookup_updated _ _ _ _ Hm). rewrite Hm in L.
      injection L as <-. reflexivity.
    + rewrite list_lookup_insert_ne by congruence.
      destruct (objects s !! r); [| discriminate L].
      injection L as <-. reflexivity.
  - destruct (cells s !! c); [| discriminate L].
    injection L as <-. reflexivity.
Qed.

Lemma SetPtr_addr s m o (a : addr) (v : T) :
  objects s !! m = Some o ->
  load_addr a s = (Returns v, s) ->
  SetPtr m (Some a) s =
    (Returns tt, mkStore (<[m := Unit v]> (objects s)) (cells s)).
Proof.
  intros Hm L. unfold SetPtr.
  erewrite bind_Returns; [| now apply store_Valid_Some with (o := o)].
  erewrite bind_Returns;
    [| eapply load_addr_after_store_Valid;
       [now apply store_Valid_Some with (o := o) | exact L]].
  erewrite store_Val_Some; [| cbn [objects]; apply (lookup_updated _ _ _ _ Hm)].
  cbn [objects cells Valid]. now rewrite update_twice.
Qed.

End Setters.

Lemma Set_frame (t : GoType) (r : ref) (x : any) (s : store (denote t))
    (u : outcome unit) (s' : store (denote t)) (j : ref) :
  Set_ t r x s = (u, s') -> j <> r -> objects s' !! j = objects s !! j.
Proof.
  unfold Set_, eval, mbind, M_bind. intros E Hne.
  destruct (type_assert t x) as [v | p]; [| now inversion E].
  destruct (store_Val r v s) as [[[] | p] s1] eqn:E1.
  - rewrite <- (store_Val_frame _ _ _ _ _ j E1 Hne).
    now apply (store_Valid_frame _ _ _ _ _ j E).
  - inversion E; subst. now apply (store_Val_frame _ _ _ _ _ j E1).
Qed.

Lemma mutate_frame (t : GoType) (c : samples.mutation) (i : ref)
    (s : store (denote t)) (u : outcome unit) (s' : store (denote t)) (j : ref) :
  samples.mutate t c i s = (u, s') -> j <> i ->
  objects s' !! j = objects s !! j.
Proof.
  destruct c; simpl.
  - apply Set_frame.
  - apply SetPtr_frame.
  - apply SetValid_frame.
Qed.

Lemma MaybeIface_copies {T : Type} (s : store T) (m : ref) (o : Maybe T) :
  objects s !! m = Some o ->
  by_value MaybeIface m s =
    (Returns (length (objects s)), mkStore (objects s ++ [o]) (cells s)).
Proof.
  intros Hm. unfold by_value.
  now rewrite (bind_Returns _ _ _ _ _ (load_Some _ _ _ Hm)).
Qed.

Lemma GetPtr_copies {T : Type} (s : store T) (i : ref) (o : Maybe T) :
  objects s !! i = Some o ->
  GetPtr i s =
    (Returns (if Valid o then Some (ValOf (length (objects s))) else None),
     mkStore (objects s ++ [o]) (cells s)).
Proof.
  intros Hi. unfold GetPtr, by_value, Pointer.
  rewrite (bind_Returns _ _ _ _ _ (load_Some _ _ _ Hi)).
  erewrite bind_Returns; [| reflexivity].
  erewrite bind_Returns; [| apply load_Some, new_var_lookup].
  now destruct (Valid o).
Qed.

(** C8, counterexample.  Starting from an empty [m], a [Set] through
    the bridge returned by [m.MaybeIface()] is not seen when [m] is read
    afterwards, and the pointer obtained from that bridge is not the
    address of the payload slot of [m] (variable 0): the bridge is
    variable 1 and the pointer addresses variable 2. *)
Lemma MaybeIface_mutation_not_visible :
  let s : store (denote TInt) := mkStore [Nothing] [] in
  let run : M (denote TInt) (ref * pointer * Maybe (denote TInt)) :=
    i ← by_value MaybeIface 0%nat;
    Set_ TInt i (Box TInt 1234);;
    p ← GetPtr i;
    o ← load 0%nat;
    mret (i, p, o) in
  (run s).1 = Returns (1%nat, Some (ValOf 2%nat), Nothing) /\
  Nothing <> (Unit 1234 : Maybe (denote TInt)) /\
  Some (ValOf 2%nat) <> Some (ValOf 0%nat).
Proof. cbv zeta. split; [reflexivity |]. split; discriminate. Qed.

(** C8, amended.  The bridge returned by [m.MaybeIface()] is a view of
    a copy of the optional made by the call (the method has a value
    receiver): it starts with the contents of [m]; a mutation performed
    through it by [Set], [SetPtr] or [SetValid] is visible through the
    bridge and leaves [m] as it was; and a pointer obtained from the
    bridge by [GetPtr] addresses the payload slot of a further copy, so
    that a write through it changes neither [m] nor the bridge. *)
Theorem MaybeIface_is_a_copy (t : GoType) (s : store (denote t)) (m : ref)
    (o : Maybe (denote t)) (c : samples.mutation) :
  objects s !! m = Some o ->
  exists (i : ref) (s1 : store (denote t)),
    by_value MaybeIface m s = (Returns i, s1) /\
    i <> m /\
    objects s1 !! i = Some o /\
    (* no mutation through the bridge reaches [m] *)
    (forall u s2, samples.mutate t c i s1 = (u, s2) ->
       objects s2 !! m = Some o) /\
    (* the mutations are seen through the bridge *)
    (forall v : denote t, exists s2,
       Set_ t i (Box t v) s1 = (Returns tt, s2) /\
       objects s2 !! i = Some (Unit v)) /\
    (forall (a : addr) (v : denote t),
       load_addr a s1 = (Returns v, s1) ->
       exists s2,
         SetPtr i (Some a) s1 = (Returns tt, s2) /\
         objects s2 !! i = Some (Unit v)) /\
    (exists s2,
       SetPtr i None s1 = (Returns tt, s2) /\
       objects s2 !! i = Some (mkMaybe (Val o) false)) /\
    (exists s2,
       SetValid i s1 = (Returns tt, s2) /\
       objects s2 !! i = Some (mkMaybe (Val o) true)) /\
    (* the pointer obtained from the bridge *)
    (exists s3,
       GetPtr i s1 =
         (Returns (if Valid o then Some (ValOf (S i)) else None), s3) /\
       S i <> m /\ S i <> i /\
       objects s3 !! S i = Some o /\
       (forall v u s4, store_addr (ValOf (S i)) v s3 = (u, s4) ->
          objects s4 !! m = Some o /\ objects s4 !! i = Some o)).
Proof.
  intros Hm.
  pose proof (lookup_in_store _ _ _ Hm) as Hlt.
  exists (length (objects s)), (mkStore (objects s ++ [o]) (cells s)).
  assert (Hi : objects (mkStore (objects s ++ [o]) (cells s))
                 !! length (objects s) = Some o)
    by apply (new_var_lookup o s).
  assert (Hm1 : objects (mkStore (objects s ++ [o]) (cells s)) !! m = Some o)
    by apply (new_var_old o s m o Hm).
  split; [now apply MaybeIface_copies |].
  split; [lia |]. split; [exact Hi |].
  split; [| split; [| split; [| split; [| split]]]].
  - intros u s2 E. rewrite (mutate_frame _ _ _ _ _ _ m E); [exact Hm1 | lia].
  - intros v. eexists. split; [apply (Set_match _ _ _ _ v Hi) |].
    cbn [objects]. apply (lookup_updated _ _ _ _ Hi).
  - intros a v L. eexists. split; [apply (SetPtr_addr _ _ _ _ _ Hi L) |].
    cbn [objects]. apply (lookup_updated _ _ _ _ Hi).
  - eexists. split; [apply (SetPtr_nil _ _ _ Hi) |].
    cbn [objects]. apply (lookup_updated _ _ _ _ Hi).
  - eexists. split; [apply (SetValid_Some _ _ _ Hi) |].
    cbn [objects]. apply (lookup_updated _ _ _ _ Hi).
  - eexists. split.
    + rewrite (GetPtr_copies _ _ _ Hi). cbn [objects].
      rewrite length_app. simpl length.
      replace (length (objects s) + 1)%nat with (S (length (objects s))) by lia.
      reflexivity.
    + split; [lia |]. split; [lia |]. split.
      * cbn [objects]. apply list_lookup_middle.
        rewrite length_app. simpl. lia.
      * intros v u s4 E. simpl in E. split.
        -- rewrite (store_Val_frame _ _ _ _ _ m E) by lia.
           cbn [objects]. now apply lookup_app_l_Some.
        -- rewrite (store_Val_frame _ _ _ _ _ (length (objects s)) E) by lia.
           cbn [objects]. now apply lookup_app_l_Some.
Qed.

Lemma MaybeIface_is_a_copy_witness :
  let s : store (denote TInt) := mkStore [Unit 7] [] in
  exists (i : ref) (s1 : store (denote TInt)),
    by_value MaybeIface 0%nat s = (Returns i, s1) /\
    i <> 0%nat /\
    objects s1 !! i = Some (Unit 7) /\
    (forall u s2,
       samples.mutate TInt (samples.CallSet (Box TInt 1234)) i s1 = (u, s2) ->
       objects s2 !! 0%nat = Some (Unit 7)).
Proof.
  cbv zeta.
  destruct (MaybeIface_is_a_copy TInt (mkStore [Unit 7] []) 0%nat (Unit 7)
              (samples.CallSet (Box TInt 1234)) eq_refl)
    as (i & s1 & H1 & H2 & H3 & H4 & _).
  exists i, s1. repeat split; assumption.
Defined.

(* ===================================================================== *)
(** * Further properties of package maybe *)
(* ===================================================================== *)

(** ** Bind, Join and the maps *)

(** X1.  [Bind] satisfies the left-identity and associativity laws and
    maps every empty optional to [Maybe[U]{}]; the right-identity law
    [Bind(Unit, m) == m] holds exactly for the optionals that are
    present or whose payload slot holds the zero value. *)
Theorem Bind_monad_laws {T U W : Type} {zero_T : GoZero T} {zero_U : GoZero U}
    {zero_W : GoZero W}
    (f : T -> Maybe U) (g : U -> Maybe W) (m : Maybe T) (x : T) :
  Bind f (Unit x) = f x /\
  Bind g (Bind f m) = Bind (fun y => Bind g (f y)) m /\
  (Valid m = false -> Bind f m = Nothing) /\
  (Bind Unit m = m <-> Valid m = true \/ Val m = zero_value).
Proof.
  split; [reflexivity |]. split; [| split].
  - unfold Bind. now destruct (Valid m).
  - apply Bind_empty.
  - rewrite Bind_Unit. destruct m as [v [|]]; simpl.
    + split; [now left | reflexivity].
    + split.
      * intros E. right. now inversion E.
      * intros [E | ->]; [discriminate | reflexivity].
Qed.

(** X2.  [Bind] is [Fmap] followed by [Join], [Fmap] is [Bind] with
    [Unit] after the function, and [Join] undoes [Unit] on every
    optional, also on an empty one whose payload slot is not zero. *)
Theorem Bind_Fmap_Join {T U : Type} {zero_T : GoZero T} {zero_U : GoZero U}
    (f : T -> Maybe U) (g : T -> U) (m : Maybe T) :
  Bind f m = Join (Fmap f m) /\
  Fmap g m = Bind (fun y => Unit (g y)) m /\
  Join (Unit m) = m.
Proof.
  unfold Join, Bind, Fmap, Identity. now destruct (Valid m).
Qed.

(** X3.  [FallibleFmap] never returns a value together with an error,
    even when [f] does: the error is not nil exactly when the input is
    present and [f] fails on its payload, and then the result is
    [Maybe[U]{}] and the error is the one [f] returned; the result is
    present exactly when the input is present and [f] succeeds, and
    then it holds the value [f] returned. *)
Theorem FallibleFmap_value_or_error {T U : Type} {zero_U : GoZero U}
    (f : T -> U * error) (m : Maybe T) :
  (is_nil_error (FallibleFmap f m).2 = false <->
     Valid m = true /\ is_nil_error (f (Val m)).2 = false) /\
  (is_nil_error (FallibleFmap f m).2 = false ->
     FallibleFmap f m = (Nothing, (f (Val m)).2)) /\
  (Valid (FallibleFmap f m).1 = true <->
     Valid m = true /\ is_nil_error (f (Val m)).2 = true) /\
  (Valid (FallibleFmap f m).1 = true ->
     FallibleFmap f m = (Unit (f (Val m)).1, nil_error)).
Proof.
  unfold FallibleFmap.
  destruct (Valid m); simpl.
  - destruct (f (Val m)) as [y [| msg]]; simpl;
      repeat split; intros; try tauto; try discriminate;
      destruct_and?; done.
  - repeat split; intros; destruct_and?; discriminate.
Qed.

(** X4.  When [f] never fails, [FallibleFmap(f, m)] is [Fmap] of the
    value part of [f], with a nil error. *)
Theorem FallibleFmap_infallible {T U : Type} {zero_U : GoZero U}
    (f : T -> U * error) (m : Maybe T) :
  (forall x, (f x).2 = nil_error) ->
  FallibleFmap f m = (Fmap (fun x => (f x).1) m, nil_error).
Proof.
  intros Hf. unfold FallibleFmap, Fmap. destruct (Valid m); simpl;
    [| reflexivity].
  specialize (Hf (Val m)). destruct (f (Val m)) as [y err]. simpl in *.
  now subst err.
Qed.

Lemma FallibleFmap_infallible_witness :
  FallibleFmap (T := denote TInt) (U := denote TInt)
    (fun x => (x + 1, nil_error)) (Unit 1233) = (Unit 1234, nil_error).
Proof.
  apply (FallibleFmap_infallible (T := denote TInt) (U := denote TInt)
           (fun x => (x + 1, nil_error)) (Unit 1233)).
  intros x. reflexivity.
Defined.

(** X5.  Defaults commute with maps: mapping [f] over an optional and
    then defaulting to [f(d)] is [f] of defaulting to [d]; and
    [GetOrZero] is [GetOr] with the zero value. *)
Theorem GetOr_Fmap {T U : Type} {zero_T : GoZero T} {zero_U : GoZero U}
    (f : T -> U) (m : Maybe T) (d : T) :
  GetOr (Fmap f m) (f d) = f (GetOr m d) /\
  GetOrZero m = GetOr m zero_value.
Proof.
  unfold GetOr, GetOrZero, Fmap. now destruct (Valid m).
Qed.

(** ** The bridge, through the store *)

Lemma Get_Some (t : GoType) (s : store (denote t)) (m : ref)
    (o : Maybe (denote t)) :
  objects s !! m = Some o ->
  Get t m s =
    (Returns (if Valid o then (Box t (Val o), true) else (nil_any, false)), s).
Proof.
  intros Hm. unfold Get.
  rewrite (bind_Returns _ _ _ _ _ (load_Some _ _ _ Hm)).
  now destruct (Valid o).
Qed.

Lemma Get_arg_Some (T : TypeArg) (s : store (denote_arg T)) (m : ref)
    (o : Maybe (denote_arg T)) :
  objects s !! m = Some o ->
  Get_arg T m s =
    (Returns (if Valid o then (to_any T (Val o), true) else (nil_any, false)),
     s).
Proof.
  intros Hm. unfold Get_arg.
  rewrite (bind_Returns _ _ _ _ _ (load_Some _ _ _ Hm)).
  now destruct (Valid o).
Qed.

Lemma matches_to_any (T : TypeArg) (v : denote_arg T) :
  has_type T v ->
  matches T (to_any T v) = negb (is_nil (to_any T v)).
Proof.
  destruct T as [t | implemented_by]; simpl.
  - intros _. now apply bool_decide_eq_true.
  - now destruct v.
Qed.

Lemma type_assert_arg_to_any (T : TypeArg) (v : denote_arg T) :
  matches T (to_any T v) = true ->
  type_assert_arg T (to_any T v) = Returns v.
Proof.
  destruct T as [t | implemented_by]; simpl.
  - intros _. apply type_assert_same.
  - destruct v as [| u v]; simpl; [discriminate |]. now intros ->.
Qed.

(** X6.  Feeding what [Get] returns for one optional to [Set] on
    another of the same payload type [T] copies the payload and marks
    the destination present when the source is present and its payload
    does not convert to the nil interface.  When the source is empty, or
    [T] is an interface type and the payload of the present source is
    nil, [Set] receives the nil interface and panics on it with a
    type-assertion error; the destination keeps its contents.  For a
    concrete [T] a payload never converts to nil, so the panic is that
    of the empty source alone. *)
Theorem Set_of_Get (T : TypeArg) (s : store (denote_arg T)) (src dst : ref)
    (o o' : Maybe (denote_arg T)) :
  objects s !! src = Some o ->
  objects s !! dst = Some o' ->
  has_type T (Val o) ->
  (x ← Get_arg T src; Set_arg T dst x.1) s =
    (if Valid o && negb (is_nil (to_any T (Val o)))
     then (Returns tt, mkStore (<[dst := Unit (Val o)]> (objects s)) (cells s))
     else (Panics (assertion_panic T nil_any), s)) /\
  (forall t, T = Concrete t -> is_nil (to_any T (Val o)) = false).
Proof.
  intros Hsrc Hdst Hty. split; [| now intros t ->].
  rewrite (bind_Returns _ _ _ _ _ (Get_arg_Some T s src o Hsrc)).
  rewrite <- (matches_to_any T (Val o) Hty).
  destruct (Valid o); simpl.
  - destruct (matches T (to_any T (Val o))) eqn:Y.
    + apply (Set_arg_Returns T s dst o' _ _ Hdst).
      now apply type_assert_arg_to_any.
    + apply Set_arg_Panics.
      rewrite (type_assert_arg_mismatch T _ Y). do 2 f_equal.
      rewrite (matches_to_any T (Val o) Hty) in Y.
      destruct (to_any T (Val o)); [reflexivity | discriminate Y].
  - apply Set_arg_Panics. now apply type_assert_arg_mismatch.
Qed.

Lemma Set_of_Get_witness :
  (let s : store (denote TInt) := mkStore [Unit 1234; mkMaybe 5 false] [] in
   (x ← Get TInt 0%nat; Set_ TInt 1%nat x.1) s =
     (Returns tt, mkStore [Unit 1234; Unit 1234] []) /\
   (x ← Get TInt 1%nat; Set_ TInt 0%nat x.1) s =
     (Panics (TypeAssertionError TInt None), s)) /\
  (let T := Interface (fun _ => true) in
   let s : store (denote_arg T) :=
     mkStore [Unit nil_any; Unit (Box TInt 7); mkMaybe (Box TInt 7) false] [] in
   (x ← Get_arg T 0%nat; Set_arg T 1%nat x.1) s =
     (Panics (InterfaceAssertionError None), s) /\
   (x ← Get_arg T 1%nat; Set_arg T 0%nat x.1) s =
     (Returns tt,
      mkStore [Unit (Box TInt 7); Unit (Box TInt 7);
               mkMaybe (Box TInt 7) false] []) /\
   (x ← Get_arg T 2%nat; Set_arg T 1%nat x.1) s =
     (Panics (InterfaceAssertionError None), s)).
Proof.
  cbv zeta. split; [split | split; [| split]].
  - apply (proj1 (Set_of_Get (Concrete TInt)
                    (mkStore [Unit 1234; mkMaybe 5 false] [])
                    0%nat 1%nat (Unit 1234) (mkMaybe 5 false)
                    eq_refl eq_refl I)).
  - apply (proj1 (Set_of_Get (Concrete TInt)
                    (mkStore [Unit 1234; mkMaybe 5 false] [])
                    1%nat 0%nat (mkMaybe 5 false) (Unit 1234)
                    eq_refl eq_refl I)).
  - apply (proj1 (Set_of_Get (Interface (fun _ => true))
                    (mkStore [Unit nil_any; Unit (Box TInt 7);
                              mkMaybe (Box TInt 7) false] [])
                    0%nat 1%nat (Unit nil_any) (Unit (Box TInt 7))
                    eq_refl eq_refl I)).
  - apply (proj1 (Set_of_Get (Interface (fun _ => true))
                    (mkStore [Unit nil_any; Unit (Box TInt 7);
                              mkMaybe (Box TInt 7) false] [])
                    1%nat 0%nat (Unit (Box TInt 7)) (Unit nil_any)
                    eq_refl eq_refl eq_refl)).
  - apply (proj1 (Set_of_Get (Interface (fun _ => true))
                    (mkStore [Unit nil_any; Unit (Box TInt 7);
                              mkMaybe (Box TInt 7) false] [])
                    2%nat 1%nat (mkMaybe (Box TInt 7) false)
                    (Unit (Box TInt 7)) eq_refl eq_refl eq_refl)).
Defined.

(** X7.  [dst.SetPtr(src.GetPtr())] copies presence and, when present,
    the payload from [src] to [dst]: a present [src] makes [dst] hold
    the same value, an empty [src] marks [dst] empty and leaves its
    payload slot alone.  [src] itself is not changed; the only other
    effect is the copy of [src] that [GetPtr] allocates. *)
Theorem SetPtr_of_GetPtr {T : Type} (s : store T) (src dst : ref)
    (o o' : Maybe T) :
  objects s !! src = Some o ->
  objects s !! dst = Some o' ->
  exists s',
    (p ← GetPtr src; SetPtr dst p) s = (Returns tt, s') /\
    objects s' !! dst =
      Some (if Valid o then Unit (Val o) else mkMaybe (Val o') false) /\
    (src <> dst -> objects s' !! src = Some o) /\
    objects s' = <[dst := if Valid o then Unit (Val o)
                          else mkMaybe (Val o') false]> (objects s ++ [o]) /\
    cells s' = cells s.
Proof.
  intros Hsrc Hdst.
  pose proof (new_var_old o s dst o' Hdst) as Hdst1. simpl in Hdst1.
  set (s1 := mkStore (objects s ++ [o]) (cells s)).
  assert (E : (p ← GetPtr src; SetPtr dst p) s =
              (Returns tt,
               mkStore (<[dst := if Valid o then Unit (Val o)
                                 else mkMaybe (Val o') false]> (objects s1))
                       (cells s1))).
  { rewrite (bind_Returns _ _ _ _ _ (GetPtr_copies s src o Hsrc)).
    fold s1. destruct (Valid o) eqn:Hv.
    - apply (SetPtr_addr s1 dst o' _ (Val o) Hdst1).
      unfold load_addr. subst s1. cbn [objects].
      now rewrite (list_lookup_middle (objects s) [] o _ eq_refl).
    - apply (SetPtr_nil s1 dst o' Hdst1). }
  eexists. split; [exact E |]. cbn [objects cells]. subst s1. cbn [objects cells].
  split; [| split; [| split; reflexivity]].
  - apply (lookup_updated _ _ _ _ Hdst1).
  - intros Hne. rewrite list_lookup_insert_ne by congruence.
    now apply lookup_app_l_Some.
Qed.

Lemma SetPtr_of_GetPtr_witness :
  let s : store (denote TInt) := mkStore [Unit 1234; Unit 5] [] in
  exists s',
    (p ← GetPtr 0%nat; SetPtr 1%nat p) s = (Returns tt, s') /\
    objects s' !! 1%nat = Some (Unit 1234) /\
    (0%nat <> 1%nat -> objects s' !! 0%nat = Some (Unit 1234)) /\
    objects s' = [Unit 1234; Unit 1234; Unit 1234] /\
    cells s' = [].
Proof.
  cbv zeta.
  apply (SetPtr_of_GetPtr (mkStore [Unit 1234; Unit 5] []) 0%nat 1%nat
           (Unit 1234) (Unit 5) eq_refl eq_refl).
Defined.

(** X8.  Emptying an optional with [SetPtr(nil)] keeps its payload:
    [Get] then returns the nil interface and [false], and a following
    [SetValid] makes the optional present again with the payload it
    had. *)
Theorem SetValid_after_SetPtr_nil (t : GoType) (s : store (denote t))
    (m : ref) (o : Maybe (denote t)) :
  objects s !! m = Some o ->
  (SetPtr m None;;
   r1 ← Get t m;
   SetValid m;;
   r2 ← Get t m;
   mret (r1, r2)) s =
    (Returns ((nil_any, false), (Box t (Val o), true)),
     mkStore (<[m := Unit (Val o)]> (objects s)) (cells s)).
Proof.
  intros Hm.
  erewrite bind_Returns; [| apply (SetPtr_nil s m o Hm)].
  erewrite bind_Returns;
    [| apply Get_Some; cbn [objects]; apply (lookup_updated _ _ _ _ Hm)].
  erewrite bind_Returns;
    [| eapply SetValid_Some; cbn [objects]; apply (lookup_updated _ _ _ _ Hm)].
  cbn [objects cells Val Valid]. rewrite update_twice.
  erewrite bind_Returns;
    [| apply Get_Some; cbn [objects]; apply (lookup_updated _ _ _ _ Hm)].
  reflexivity.
Qed.

Lemma SetValid_after_SetPtr_nil_witness :
  let s : store (denote TInt) := mkStore [Unit 1234] [] in
  (SetPtr 0%nat None;;
   r1 ← Get TInt 0%nat;
   SetValid 0%nat;;
   r2 ← Get TInt 0%nat;
   mret (r1, r2)) s =
    (Returns ((nil_any, false), (Box TInt 1234, true)), s).
Proof.
  cbv zeta.
  apply (SetValid_after_SetPtr_nil TInt (mkStore [Unit 1234] []) 0%nat
           (Unit 1234) eq_refl).
Defined.

(** ** The adapters *)

(** X9.  Decoding a token other than null that the codec accepts
    overwrites the optional, whatever it held: the codec is given the
    old payload slot to decode into, and the optional ends up present
    with the payload the codec produced. *)
Theorem UnmarshalJSON_success {T : Type}
    (json_Unmarshal : list Byte.byte -> T -> T * error)
    (m : ref) (val : list Byte.byte) (s : store T) (o : Maybe T) (v : T) :
  val <> null ->
  objects s !! m = Some o ->
  json_Unmarshal val (Val o) = (v, nil_error) ->
  UnmarshalJSON json_Unmarshal m val s =
    (Returns nil_error, mkStore (<[m := Unit v]> (objects s)) (cells s)).
Proof.
  intros Hval Hm Hdec.
  now rewrite (UnmarshalJSON_token _ _ _ _ _ Hval Hm), Hdec.
Qed.

Lemma UnmarshalJSON_success_witness :
  UnmarshalJSON samples.bool_Unmarshal 0%nat samples.json_true
    (mkStore [mkMaybe false false] []) =
  (Returns nil_error, mkStore [Unit true] []).
Proof.
  apply (UnmarshalJSON_success samples.bool_Unmarshal 0%nat samples.json_true
           (mkStore [mkMaybe false false] []) (mkMaybe false false) true).
  - discriminate.
  - reflexivity.
  - reflexivity.
Defined.

(** X10.  When the scan of the local [sql.Null[T]] succeeds, [Scan]
    overwrites both fields of the optional with the fields of the
    scanned value, whatever the optional held, and returns nil. *)
Theorem Scan_success {T : Type} {zero_T : GoZero T}
    (Null_Scan : Null T -> any -> Null T * error)
    (m : ref) (val : any) (s : store T) (o : Maybe T) (n : Null T) :
  objects s !! m = Some o ->
  Null_Scan (mkNull zero_value false) val = (n, nil_error) ->
  Scan Null_Scan m val s =
    (Returns nil_error,
     mkStore (<[m := mkMaybe (V n) (NullValid n)]> (objects s)) (cells s)).
Proof.
  intros Hm E. unfold Scan. rewrite E. simpl.
  erewrite bind_Returns; [| apply (store_Valid_Some s m o _ Hm)].
  erewrite bind_Returns;
    [| eapply store_Val_Some; cbn [objects]; apply (lookup_updated _ _ _ _ Hm)].
  cbn [objects cells Val Valid]. now rewrite update_twice.
Qed.

Lemma Scan_success_witness :
  let s : store (denote TInt64) := mkStore [Unit 1234] [] in
  Scan samples.Null_int64_Scan 0%nat nil_any s =
    (Returns nil_error, mkStore [mkMaybe 0 false] []) /\
  Scan samples.Null_int64_Scan 0%nat (Box TInt64 7) s =
    (Returns nil_error, mkStore [Unit 7] []).
Proof.
  cbv zeta. split.
  - apply (Scan_success (T := denote TInt64) samples.Null_int64_Scan 0%nat
             nil_any (mkStore [Unit 1234] []) (Unit 1234) (mkNull 0 false)
             eq_refl eq_refl).
  - apply (Scan_success (T := denote TInt64) samples.Null_int64_Scan 0%nat
             (Box TInt64 7) (mkStore [Unit 1234] []) (Unit 1234) (mkNull 7 true)
             eq_refl eq_refl).
Defined.

(** X11.  For a payload of type [bool], [int], [int8], [int16],
    [int32], [int64], [uint], [uint8], [uint16], [uint32], [uint64],
    [float32], [float64], [string] or [[]byte], [Value()] returns no
    error and a value that [driver.IsValue] accepts: nil for an empty
    optional, and for a present one an [int64], [float64], [bool],
    [string] or [[]byte]; none of the other integer and float types
    listed reaches the driver. *)
Theorem Value_IsValue
    (Valuer : string -> forall u : GoType, option (denote u -> any * error))
    (t : GoType) (m : Maybe (denote t)) :
  In t [TBool; TInt; TInt8; TInt16; TInt32; TInt64;
        TUint; TUint8; TUint16; TUint32; TUint64;
        TFloat32; TFloat64; TString; TBytes] ->
  driver.IsValue (Value Valuer t m).1 = true /\
  (Value Valuer t m).2 = nil_error /\
  (if Valid m
   then In (dynamic_type (Value Valuer t m).1)
           [Some TInt64; Some TFloat64; Some TBool; Some TString; Some TBytes]
   else (Value Valuer t m).1 = nil_any).
Proof.
  intros Ht. unfold Value. destruct (Valid m); simpl; [| now split].
  simpl in Ht.
  repeat (destruct Ht as [<- | Ht]; [simpl; intuition |]).
  contradiction.
Qed.

Lemma Value_IsValue_witness :
  driver.IsValue (Value samples.no_Valuer TUint16 (Unit 7)).1 = true /\
  (Value samples.no_Valuer TUint16 (Unit 7)).2 = nil_error /\
  In (dynamic_type (Value samples.no_Valuer TUint16 (Unit 7)).1)
     [Some TInt64; Some TFloat64; Some TBool; Some TString; Some TBytes].
Proof.
  apply (Value_IsValue samples.no_Valuer TUint16 (Unit 7)).
  do 8 right. left. reflexivity.
Defined.

(** ** Pointers in and out *)

(** X12.  [New] undoes [pointer.To], and [New] of [m.Pointer()] is [m]
    with the payload slot of an empty [m] reset to zero: the optional
    built from the pointer of a present [m] is equal to [m]. *)
Theorem New_of_pointer {T : Type} {zero_T : GoZero T} (x : T) (m : Maybe T)
    (s : store T) :
  (p ← pointer.To x; pointer.New_at p) s =
    (Returns (Unit x), mkStore (objects s) (cells s ++ [x])) /\
  (p ← Pointer m; pointer.New_at p) s =
    (Returns (if Valid m then m else Nothing),
     mkStore (objects s ++ [m]) (cells s)).
Proof.
  split.
  - unfold pointer.To, pointer.New_at, mbind, M_bind, load_addr. cbn [cells].
    now rewrite (list_lookup_middle (cells s) [] x _ eq_refl).
  - assert (E : Pointer m s =
                  (Returns (if Valid m then Some (ValOf (length (objects s)))
                            else None),
                   mkStore (objects s ++ [m]) (cells s))).
    { unfold Pointer.
      erewrite bind_Returns; [| reflexivity].
      erewrite bind_Returns; [| apply load_Some, new_var_lookup].
      now destruct (Valid m). }
    rewrite (bind_Returns _ _ _ _ _ E).
    destruct m as [v [|]]; cbn [Valid]; [| reflexivity].
    unfold pointer.New_at, mbind, M_bind, load_addr. cbn [objects].
    now rewrite (list_lookup_middle (objects s) [] _ _ eq_refl).
Qed.

(* ===================================================================== *)
(** * Properties of package slice *)
(* ===================================================================== *)

(** ** The loops *)

Lemma slice_append_nil {U : Type} (r : option (list U)) :
  slice.append r [] = r.
Proof. destruct r as [l |]; simpl; [now rewrite app_nil_r | reflexivity]. Qed.

Lemma slice_append_append {U : Type} (r : option (list U)) (a b : list U) :
  slice.append (slice.append r a) b = slice.append r (a ++ b).
Proof.
  destruct r as [l |], a as [| x a], b as [| y b]; simpl;
    rewrite ?app_nil_r, <- ?app_assoc; reflexivity.
Qed.

Lemma slice_append_None {U : Type} (ys : list U) :
  slice.append None ys = match ys with [] => None | _ => Some ys end.
Proof. now destruct ys. Qed.

(** Every assignment [r[i] = f(x)] of the loop lands on the next slot
    not yet written. *)
Lemma slice_Fmap_range_spec {T U : Type} (f : T -> U) (l : list T)
    (done rest : list U) :
  length rest = length l ->
  slice.Fmap_range f (length done) l (done ++ rest) = done ++ map f l.
Proof.
  revert done rest. induction l as [| x l IH]; intros done rest Hlen.
  - destruct rest; [reflexivity | discriminate].
  - destruct rest as [| y rest]; [discriminate |]. simpl.
    rewrite insert_app_r_alt by lia. rewrite Nat.sub_diag. simpl.
    replace (done ++ f x :: rest) with ((done ++ [f x]) ++ rest)
      by now rewrite <- app_assoc.
    replace (S (length done)) with (length (done ++ [f x]))
      by (rewrite length_app; simpl; lia).
    rewrite IH by (simpl in Hlen; lia).
    now rewrite <- app_assoc.
Qed.

Lemma slice_Fmap_Some {T U : Type} {zero_U : GoZero U} (f : T -> U)
    (xs : list T) :
  slice.Fmap f (Some xs) = Some (map f xs).
Proof.
  unfold slice.Fmap, slice.make. f_equal.
  apply (slice_Fmap_range_spec f xs []). apply length_replicate.
Qed.

Lemma slice_Bind_range_spec {T U : Type} (f : T -> option (list U))
    (l : list T) (r : option (list U)) :
  slice.Bind_range f l r =
    slice.append r (concat (map (fun x => slice.elems (f x)) l)).
Proof.
  revert r. induction l as [| x l IH]; intros r; simpl.
  - now rewrite slice_append_nil.
  - now rewrite IH, slice_append_append.
Qed.

Lemma slice_FallibleFmap_range_ok {T U : Type} (f : T -> U * error)
    (l : list T) (done rest : list U) :
  length rest = length l ->
  (forall x, In x l -> (f x).2 = nil_error) ->
  slice.FallibleFmap_range f (length done) l (done ++ rest) =
    (Some (done ++ map (fun x => (f x).1) l), nil_error).
Proof.
  revert done rest. induction l as [| x l IH]; intros done rest Hlen Hok.
  - destruct rest; [reflexivity | discriminate].
  - destruct rest as [| y rest]; [discriminate |]. simpl.
    pose proof (Hok x (or_introl eq_refl)) as Hx.
    destruct (f x) as [v err]. simpl in Hx. subst err. simpl.
    rewrite insert_app_r_alt by lia. rewrite Nat.sub_diag. simpl.
    replace (done ++ v :: rest) with ((done ++ [v]) ++ rest)
      by now rewrite <- app_assoc.
    replace (S (length done)) with (length (done ++ [v]))
      by (rewrite length_app; simpl; lia).
    rewrite IH.
    + now rewrite <- app_assoc.
    + simpl in Hlen. lia.
    + intros z Hz. apply Hok. now right.
Qed.

Lemma slice_FallibleFmap_range_fails {T U : Type} (f : T -> U * error)
    (pre : list T) (x : T) (post : list T) (msg : string) (i : nat)
    (r : list U) :
  (forall y, In y pre -> (f y).2 = nil_error) ->
  (f x).2 = Err msg ->
  slice.FallibleFmap_range f i (pre ++ x :: post) r = (None, Err msg).
Proof.
  revert i r. induction pre as [| y pre IH]; intros i r Hpre Hx; simpl.
  - destruct (f x) as [v err]. simpl in Hx. now subst err.
  - pose proof (Hpre y (or_introl eq_refl)) as Hy.
    destruct (f y) as [v err]. simpl in Hy. subst err. simpl.
    apply IH; [| assumption]. intros z Hz. apply Hpre. now right.
Qed.

(** ** Fmap *)

(** X13.  [Fmap] applies [f] to every element in order: the nil slice
    is mapped to the nil slice, and a slice that is not nil to a slice
    that is not nil, of the same length. *)
Theorem slice_Fmap_maps {T U : Type} {zero_U : GoZero U} (f : T -> U)
    (l : option (list T)) :
  slice.Fmap f l = match l with None => None | Some xs => Some (map f xs) end /\
  slice.len (slice.Fmap f l) = slice.len l /\
  (slice.Fmap f l = None <-> l = None).
Proof.
  destruct l as [xs |].
  - rewrite slice_Fmap_Some. split; [reflexivity |]. split.
    + unfold slice.len. simpl. apply length_map.
    + split; discriminate.
  - split; [reflexivity |]. split; [reflexivity |]. now split.
Qed.

(** X14.  [Fmap] satisfies the functor laws on slices, nil slices and
    empty slices that are not nil included. *)
Theorem slice_Fmap_functor_laws {T U W : Type} {zero_T : GoZero T}
    {zero_U : GoZero U} {zero_W : GoZero W}
    (f : U -> W) (g : T -> U) (l : option (list T)) :
  slice.Fmap Identity l = l /\
  slice.Fmap (fun x => f (g x)) l = slice.Fmap f (slice.Fmap g l).
Proof.
  destruct l as [xs |]; [| now split].
  rewrite !slice_Fmap_Some. split.
  - unfold Identity. now rewrite map_id.
  - now rewrite map_map.
Qed.

(** ** Bind and Join *)

(** X15.  [Bind] concatenates the slices [f] returns, in order, and its
    result is the nil slice whenever there is nothing to concatenate:
    for a nil input, but also for an empty input that is not nil and
    for an [f] that returns only empty slices. *)
Theorem slice_Bind_concat {T U : Type} (f : T -> option (list U))
    (l : option (list T)) :
  slice.elems (slice.Bind f l) =
    concat (map (fun x => slice.elems (f x)) (slice.elems l)) /\
  (slice.Bind f l = None <-> slice.elems (slice.Bind f l) = []) /\
  slice.Bind f (Some []) = None.
Proof.
  destruct l as [xs |]; simpl; [| now repeat split].
  rewrite slice_Bind_range_spec, slice_append_None.
  destruct (concat _) as [| y ys]; simpl; repeat split; discriminate.
Qed.

(** X16.  [Bind] is [Fmap] followed by [Join].  The unit law
    [Bind(unit, l) == l] and [Join] of a one-element slice of slices
    give back [l] exactly when [l] is nil or has an element: an empty
    slice that is not nil comes back as the nil slice. *)
Theorem slice_Bind_Fmap_Join {T U : Type} (f : T -> option (list U))
    (l : option (list T)) :
  slice.Bind f l = slice.Join (slice.Fmap f l) /\
  (slice.Bind (fun x => Some [x]) l = l <-> l <> Some []) /\
  (slice.Join (Some [l]) = l <-> l <> Some []).
Proof.
  split; [| split].
  - destruct l as [xs |]; [| reflexivity].
    rewrite slice_Fmap_Some. unfold slice.Join, slice.Bind.
    rewrite !slice_Bind_range_spec. unfold Identity. now rewrite map_map.
  - destruct l as [xs |]; [| split; [discriminate | reflexivity]].
    unfold slice.Bind. rewrite slice_Bind_range_spec, slice_append_None.
    simpl. replace (concat (map (fun x => [x]) xs)) with xs
      by (induction xs as [| x xs IH]; simpl; [| rewrite <- IH]; reflexivity).
    destruct xs; split; try discriminate; try reflexivity; congruence.
  - unfold slice.Join, slice.Bind. rewrite slice_Bind_range_spec.
    unfold Identity. rewrite slice_append_None. cbn [map concat].
    rewrite app_nil_r.
    destruct l as [[| x xs] |]; simpl; split;
      try discriminate; try reflexivity; congruence.
Qed.

(** The case of [slice_test.go]. *)
Example slice_TestJoin :
  slice.Join (Some [Some [1; 2]; Some []; Some [3; 4; 5]]) =
    Some [1; 2; 3; 4; 5].
Proof. reflexivity. Qed.

(** ** FallibleFmap *)

Lemma first_failure {T U : Type} (f : T -> U * error) (l : list T) :
  (forall x, In x l -> (f x).2 = nil_error) \/
  (exists pre x post msg,
     l = pre ++ x :: post /\
     (forall y, In y pre -> (f y).2 = nil_error) /\
     (f x).2 = Err msg).
Proof.
  induction l as [| x l IH].
  - left. intros x [].
  - destruct ((f x).2) as [| msg] eqn:Hx.
    + destruct IH as [Hok | (pre & y & post & msg & -> & Hpre & Hy)].
      * left. intros z [<- | Hz]; [assumption | now apply Hok].
      * right. exists (x :: pre), y, post, msg. split; [reflexivity |].
        split; [| assumption].
        intros z [<- | Hz]; [assumption | now apply Hpre].
    + right. exists [], x, l, msg. split; [reflexivity |].
      split; [intros z [] | assumption].
Qed.

(** X17.  [FallibleFmap] returns a nil error exactly when [f] succeeds
    on every element, and then its result is that of [Fmap] with the
    value part of [f]: the values in order, the nil slice for the nil
    slice. *)
Theorem slice_FallibleFmap_succeeds {T U : Type} {zero_U : GoZero U}
    (f : T -> U * error) (l : option (list T)) :
  ((slice.FallibleFmap f l).2 = nil_error <->
     forall x, In x (slice.elems l) -> (f x).2 = nil_error) /\
  ((slice.FallibleFmap f l).2 = nil_error ->
     slice.FallibleFmap f l = (slice.Fmap (fun x => (f x).1) l, nil_error)).
Proof.
  destruct l as [xs |]; [| split; [split; [intros _ x [] | reflexivity]
                                  | reflexivity]].
  assert (Hok : (forall x, In x xs -> (f x).2 = nil_error) ->
                slice.FallibleFmap f (Some xs) =
                  (slice.Fmap (fun x => (f x).1) (Some xs), nil_error)).
  { intros H. rewrite slice_Fmap_Some. unfold slice.FallibleFmap, slice.make.
    apply (slice_FallibleFmap_range_ok f xs []); [apply length_replicate | exact H]. }
  assert (Hiff : (slice.FallibleFmap f (Some xs)).2 = nil_error ->
                 forall x, In x xs -> (f x).2 = nil_error).
  { intros E.
    destruct (first_failure f xs)
      as [H | (pre & x & post & msg & -> & Hpre & Hx)]; [exact H |].
    unfold slice.FallibleFmap in E.
    rewrite (slice_FallibleFmap_range_fails f pre x post msg _ _ Hpre Hx) in E.
    discriminate E. }
  split.
  - split; [exact Hiff |]. intros H. now rewrite (Hok H).
  - intros E. apply Hok, Hiff, E.
Qed.

(** X18.  When [f] fails on some element, [FallibleFmap] returns the
    nil slice together with the error [f] returned for the first such
    element; nothing of what was mapped before is returned. *)
Theorem slice_FallibleFmap_first_error {T U : Type} {zero_U : GoZero U}
    (f : T -> U * error) (pre : list T) (x : T) (post : list T)
    (msg : string) :
  (forall y, In y pre -> (f y).2 = nil_error) ->
  (f x).2 = Err msg ->
  slice.FallibleFmap f (Some (pre ++ x :: post)) = (None, Err msg).
Proof.
  intros Hpre Hx. unfold slice.FallibleFmap.
  now apply slice_FallibleFmap_range_fails.
Qed.

Lemma slice_FallibleFmap_first_error_witness :
  slice.FallibleFmap (T := denote TInt) (U := denote TInt)
    (fun x => if x <? 3 then (x, nil_error)
              else if x <? 5 then (x, Err "three or four")
              else (x, Err "too large"))
    (Some ([1; 2] ++ 4 :: [7; 3])) = (None, Err "three or four").
Proof.
  apply (slice_FallibleFmap_first_error (T := denote TInt) (U := denote TInt)
           (fun x => if x <? 3 then (x, nil_error)
                     else if x <? 5 then (x, Err "three or four")
                     else (x, Err "too large"))
           [1; 2] 4 [7; 3] "three or four").
  - intros y [<- | [<- | []]]; reflexivity.
  - reflexivity.
Defined.

(** ** SetFmap and FallibleSetFmap *)

Section SliceSets.
Context {T U : Type} `{Countable T}.
Variable range_keys : gset T -> list T.

Lemma slice_SetFmap_range_spec (f : T -> U) (keys : list T)
    (r : option (list U)) :
  slice.SetFmap_range f keys r = slice.append r (map f keys).
Proof.
  revert r. induction keys as [| x keys IH]; intros r; simpl.
  - now rewrite slice_append_nil.
  - now rewrite IH, slice_append_append.
Qed.

Lemma slice_FallibleSetFmap_range_ok (f : T -> U * error) (keys : list T)
    (r : option (list U)) :
  (forall x, In x keys -> (f x).2 = nil_error) ->
  slice.FallibleSetFmap_range f keys r =
    (slice.append r (map (fun x => (f x).1) keys), nil_error).
Proof.
  revert r. induction keys as [| x keys IH]; intros r Hok; simpl.
  - now rewrite slice_append_nil.
  - pose proof (Hok x (or_introl eq_refl)) as Hx.
    destruct (f x) as [v err]. simpl in Hx. subst err. simpl.
    rewrite IH by (intros z Hz; apply Hok; now right).
    now rewrite slice_append_append.
Qed.

Lemma slice_FallibleSetFmap_range_fails (f : T -> U * error)
    (pre : list T) (x : T) (post : list T) (msg : string)
    (r : option (list U)) :
  (forall y, In y pre -> (f y).2 = nil_error) ->
  (f x).2 = Err msg ->
  slice.FallibleSetFmap_range f (pre ++ x :: post) r = (None, Err msg).
Proof.
  revert r. induction pre as [| y pre IH]; intros r Hpre Hx; simpl.
  - destruct (f x) as [v err]. simpl in Hx. now subst err.
  - pose proof (Hpre y (or_introl eq_refl)) as Hy.
    destruct (f y) as [v err]. simpl in Hy. subst err. simpl.
    apply IH; [| assumption]. intros z Hz. apply Hpre. now right.
Qed.

End SliceSets.

(** X19.  Whatever the order in which the keys are visited, [SetFmap]
    returns a slice that is not nil (also for an empty or nil map, unlike
    [Fmap] on a nil slice), with one element per key: the images of the
    keys under [f], in the order of the visit. *)
Theorem slice_SetFmap_images {T U : Type} `{Countable T}
    (range_keys : gset T -> list T) (f : T -> U) (s : gset T) :
  range_keys s ≡ₚ elements s ->
  exists l : list U,
    slice.SetFmap range_keys f s = Some l /\
    l = map f (range_keys s) /\
    l ≡ₚ map f (elements s) /\
    length l = size s.
Proof.
  intros Hperm. exists (map f (range_keys s)).
  unfold slice.SetFmap. rewrite slice_SetFmap_range_spec.
  split; [now destruct (map f (range_keys s)) |]. split; [reflexivity |].
  split.
  - now apply Permutation_map.
  - rewrite length_map. unfold size, set_size. simpl.
    now apply Permutation_length.
Qed.

Lemma slice_SetFmap_images_witness :
  exists l : list Z,
    slice.SetFmap (T := nat) elements Z.of_nat ({[ 1%nat; 2%nat ]} : gset nat)
      = Some l /\
    l = map Z.of_nat (elements ({[ 1%nat; 2%nat ]} : gset nat)) /\
    l ≡ₚ map Z.of_nat (elements ({[ 1%nat; 2%nat ]} : gset nat)) /\
    length l = size ({[ 1%nat; 2%nat ]} : gset nat).
Proof.
  apply (slice_SetFmap_images (T := nat) elements Z.of_nat
           ({[ 1%nat; 2%nat ]} : gset nat)).
  reflexivity.
Defined.

(** X20.  Whatever the order in which the keys are visited,
    [FallibleSetFmap] succeeds exactly when [f] succeeds on every key,
    and then returns a slice that is not nil holding the values [f]
    returned, one per key; otherwise it returns the nil slice and the
    error [f] returned for one of the keys. *)
Theorem slice_FallibleSetFmap_all_or_nothing {T U : Type} `{Countable T}
    (range_keys : gset T -> list T) (f : T -> U * error) (s : gset T) :
  range_keys s ≡ₚ elements s ->
  ((forall x, x ∈ s -> (f x).2 = nil_error) ->
     exists l : list U,
       slice.FallibleSetFmap range_keys f s = (Some l, nil_error) /\
       l ≡ₚ map (fun x => (f x).1) (elements s)) /\
  ((exists x, x ∈ s /\ (f x).2 <> nil_error) ->
     exists x msg,
       x ∈ s /\ (f x).2 = Err msg /\
       slice.FallibleSetFmap range_keys f s = (None, Err msg)).
Proof.
  intros Hperm.
  assert (Hin : forall x, In x (range_keys s) <-> x ∈ s).
  { intros x. rewrite <- list_elem_of_In, Hperm. apply elem_of_elements. }
  split.
  - intros Hok. exists (map (fun x => (f x).1) (range_keys s)).
    unfold slice.FallibleSetFmap.
    rewrite slice_FallibleSetFmap_range_ok
      by (intros x Hx; now apply Hok, Hin).
    split; [now destruct (map _ (range_keys s)) | now apply Permutation_map].
  - intros (x & Hx & Hfail).
    destruct (first_failure f (range_keys s))
      as [Hok | (pre & y & post & msg & E & Hpre & Hy)].
    + destruct Hfail. now apply Hok, Hin.
    + exists y, msg. split; [| split; [assumption |]].
      * apply Hin. rewrite E. apply in_or_app. right. now left.
      * unfold slice.FallibleSetFmap. rewrite E.
        now apply slice_FallibleSetFmap_range_fails.
Qed.

Lemma slice_FallibleSetFmap_all_or_nothing_witness :
  exists l : list Z,
    slice.FallibleSetFmap (T := nat) elements
      (fun x => (Z.of_nat x, nil_error)) ({[ 1%nat; 2%nat ]} : gset nat)
      = (Some l, nil_error) /\
    l ≡ₚ map (fun x => Z.of_nat x) (elements ({[ 1%nat; 2%nat ]} : gset nat)).
Proof.
  apply (slice_FallibleSetFmap_all_or_nothing (T := nat) elements
           (fun x => (Z.of_nat x, nil_error)) ({[ 1%nat; 2%nat ]} : gset nat)).
  - reflexivity.
  - intros x _. reflexivity.
Defined.

(* ===================================================================== *)
(** * Properties of package serr *)
(* ===================================================================== *)

(** ** Strings *)

Lemma string_app_cons (ch : Ascii.ascii) (a b : string) :
  (String ch a ++ b = String ch (a ++ b))%string.
Proof. reflexivity. Qed.

Lemma string_app_nil_l (a : string) : ("" ++ a = a)%string.
Proof. reflexivity. Qed.

Lemma string_app_assoc (a b c : string) :
  ((a ++ b) ++ c = a ++ (b ++ c))%string.
Proof.
  induction a as [| ch a IH]; [reflexivity |].
  rewrite !string_app_cons. now f_equal.
Qed.

Lemma string_app_nil_r (a : string) : (a ++ "" = a)%string.
Proof.
  induction a as [| ch a IH]; [reflexivity |].
  rewrite string_app_cons. now f_equal.
Qed.

Lemma string_length_app (a b : string) :
  String.length (a ++ b) = (String.length a + String.length b)%nat.
Proof.
  induction a as [| ch a IH]; [reflexivity |].
  rewrite string_app_cons. simpl. now f_equal.
Qed.

Section SerrProperties.
Context {X : serr.Externals} {P : serr.Printers}.

(** ** The attribute part of a message *)

Lemma write_attr_prefix (sb : string) (attr : serr.Attr) :
  serr.write_attr sb attr = (sb ++ serr.write_attr "" attr)%string.
Proof.
  unfold serr.write_attr. cbv zeta.
  destruct (serr.logString (serr.attr_value attr)) as [logstr [|]];
    now rewrite !string_app_assoc, string_app_nil_l.
Qed.

Lemma write_attr_list_prefix (sb : string) (l : list serr.Attr) :
  fold_left serr.write_attr l sb =
    (sb ++ fold_left serr.write_attr l "")%string.
Proof.
  revert sb. induction l as [| a l IH]; intros sb; simpl.
  - now rewrite string_app_nil_r.
  - rewrite IH, (IH (serr.write_attr "" a)), write_attr_prefix.
    now rewrite string_app_assoc.
Qed.

Lemma write_attrs_prefix (sb : string) (attrs : list serr.Attributed) :
  serr.write_attrs sb attrs = (sb ++ serr.write_attrs "" attrs)%string.
Proof.
  unfold serr.write_attrs. revert sb.
  induction attrs as [| a attrs IH]; intros sb; simpl.
  - now rewrite string_app_nil_r.
  - rewrite IH, (IH (fold_left _ _ ""%string)), write_attr_list_prefix.
    now rewrite string_app_assoc.
Qed.

Lemma write_attrs_app (sb : string) (a b : list serr.Attributed) :
  serr.write_attrs sb (a ++ b) = serr.write_attrs (serr.write_attrs sb a) b.
Proof. unfold serr.write_attrs. apply fold_left_app. Qed.

Lemma write_attrs_flat (sb : string) (attrs : list serr.Attributed) :
  serr.write_attrs sb attrs =
    fold_left serr.write_attr (concat (map serr.Attributes attrs)) sb.
Proof.
  unfold serr.write_attrs. revert sb.
  induction attrs as [| a attrs IH]; intros sb; simpl; [reflexivity |].
  now rewrite fold_left_app, IH.
Qed.

Lemma Attributes_OfAttr (group : list serr.Attr) :
  concat (map serr.Attributes (map serr.OfAttr group)) = group.
Proof.
  induction group as [| g group IH]; simpl; [reflexivity | now rewrite IH].
Qed.

Lemma write_attrs_length (sb : string) (attrs : list serr.Attributed) :
  (String.length sb <= String.length (serr.write_attrs sb attrs))%nat.
Proof. rewrite write_attrs_prefix, string_length_app. lia. Qed.

(** X21.  The text [Error] writes for the attributes does not depend on
    the message before it, is written attribute by attribute in the
    order given, and depends only on the attributes themselves, not on
    how they are grouped into [Attributed] values: an [Attributed] that
    returns several attributes is written like those attributes passed
    one by one. *)
Theorem serr_Error_attributes (msg : string) (a b : list serr.Attributed)
    (group : list serr.Attr) :
  serr.Error (serr.New msg a) =
    (msg ++ serr.Error (serr.New "" a))%string /\
  serr.Error (serr.New msg (a ++ b)) =
    (serr.Error (serr.New msg a) ++ serr.Error (serr.New "" b))%string /\
  serr.Error (serr.New msg (a ++ serr.Custom group :: b)) =
    serr.Error (serr.New msg (a ++ map serr.OfAttr group ++ b)) /\
  serr.Error (serr.New msg []) = msg.
Proof.
  simpl. split; [apply write_attrs_prefix |]. split; [| split; [| reflexivity]].
  - rewrite write_attrs_app. apply write_attrs_prefix.
  - rewrite !write_attrs_flat. f_equal.
    rewrite !map_app, !concat_app. cbn [map concat serr.Attributes].
    now rewrite Attributes_OfAttr.
Qed.

(** X22.  The message of a wrapping error is that of [New] with the
    head [msg: inner] in place of the message.  [Wrap] with an empty
    message and no attributes is transparent.  [WrapMulti] with one
    error is [Wrap]; with no error and a message that is not empty, its
    head is the message followed by a colon and a space. *)
Theorem serr_Wrap_messages (msg : string) (err : serr.error)
    (attrs : list serr.Attributed) :
  serr.Error (serr.Wrap msg err attrs) =
    serr.Error
      (serr.New (if String.eqb msg "" then serr.Error err
                 else msg ++ ": " ++ serr.Error err)%string attrs) /\
  serr.Error (serr.Wrap "" err []) = serr.Error err /\
  serr.Error (serr.WrapMulti msg [err] attrs) =
    serr.Error (serr.Wrap msg err attrs) /\
  serr.Error (serr.WrapMulti msg [] attrs) =
    serr.Error
      (serr.New (if String.eqb msg "" then "" else msg ++ ": ")%string attrs).
Proof.
  simpl. unfold serr.wrapped_message, serr.wrappedMulti_message. simpl.
  repeat split; reflexivity.
Qed.

(** ** Logging *)

Lemma attrsToSlog_flat (attrs : list serr.Attributed) :
  serr.attrsToSlog attrs =
    map serr.attrToSlog (concat (map serr.Attributes attrs)).
Proof.
  unfold serr.attrsToSlog.
  assert (Hin : forall (l : list serr.Attr) acc,
             fold_left (fun attrs attr => attrs ++ [serr.attrToSlog attr]) l acc =
               acc ++ map serr.attrToSlog l).
  { induction l as [| a l IH]; intros acc; simpl.
    - now rewrite app_nil_r.
    - now rewrite IH, <- app_assoc. }
  assert (Hout : forall (l : list serr.Attributed) acc,
             fold_left
               (fun attrs attr =>
                  fold_left (fun attrs attr => attrs ++ [serr.attrToSlog attr])
                            (serr.Attributes attr) attrs) l acc =
               acc ++ map serr.attrToSlog (concat (map serr.Attributes l))).
  { induction l as [| a l IH]; intros acc; simpl.
    - now rewrite app_nil_r.
    - now rewrite IH, Hin, map_app, <- app_assoc. }
  apply (Hout attrs []).
Qed.

Lemma attrToSlog_key (attr : serr.Attr) :
  serr.slog_key (serr.attrToSlog attr) = serr.key attr.
Proof.
  unfold serr.attrToSlog.
  destruct (serr.attr_value attr); try reflexivity;
    destruct (serr.logString _) as [logstr [|]]; reflexivity.
Qed.

(** X23.  What [Log] hands to the logger agrees with [Error]: the
    level is the one given, the message of an error of this package
    followed by the text [Error] writes for its attributes is its
    [Error] string, and there is one [slog] attribute per attribute of
    the error, in order and under the same key.  An error of another
    package is logged with its [Error] string and no attribute. *)
Theorem serr_Log_agrees_with_Error (level : serr.Level) (err : serr.error) :
  serr.log_level (serr.Log level err) = level /\
  serr.Error err =
    (serr.log_msg (serr.Log level err) ++
     serr.Error (serr.New "" (serr.attrs_of err)))%string /\
  map serr.slog_key (serr.log_args (serr.Log level err)) =
    map serr.key (concat (map serr.Attributes (serr.attrs_of err))) /\
  (forall e, err = serr.External e ->
     serr.Log level err = serr.mkLog level (serr.ext_Error e) []).
Proof.
  split; [now destruct err |]. split; [| split].
  - destruct err as [e | msg attrs | msg inner attrs | msg errs attrs];
      cbn [serr.Log serr.log_msg serr.attrs_of serr.Error serr.New].
    + cbn [serr.write_attrs fold_left]. now rewrite string_app_nil_r.
    + apply write_attrs_prefix.
    + apply write_attrs_prefix.
    + apply write_attrs_prefix.
  - destruct err as [e | msg attrs | msg inner attrs | msg errs attrs];
      cbn [serr.Log serr.log_args serr.attrs_of]; [reflexivity | ..];
      rewrite attrsToSlog_flat, map_map;
      apply map_ext; intros a; apply attrToSlog_key.
  - now intros e ->.
Qed.

Lemma write_attrs_snoc (sb : string) (attrs : list serr.Attributed)
    (attr : serr.Attr) :
  serr.write_attrs sb (attrs ++ [serr.OfAttr attr]) =
    serr.write_attr (serr.write_attrs sb attrs) attr.
Proof. unfold serr.write_attrs. now rewrite fold_left_app. Qed.

Lemma attrsToSlog_snoc (attrs : list serr.Attributed) (attr : serr.Attr) :
  serr.attrsToSlog (attrs ++ [serr.OfAttr attr]) =
    serr.attrsToSlog attrs ++ [serr.attrToSlog attr].
Proof. unfold serr.attrsToSlog. now rewrite fold_left_app. Qed.

Lemma attrToSlog_Any (attr : serr.Attr) :
  serr.attrToSlog attr = serr.slog_Any (serr.key attr) (serr.attr_value attr)
  <-> (serr.logString (serr.attr_value attr)).2 = false.
Proof.
  unfold serr.attrToSlog.
  destruct attr as [k v]. cbn [serr.attr_value serr.key].
  destruct v as [s | n | n | u | t | m | o | o]; cbn [serr.logString snd];
    try (split; discriminate).
  destruct (serr.json_MarshalIndent (serr.VOther o)) as [b |]; cbn [snd];
    split; (discriminate || reflexivity).
Qed.

(** X24.  [logString] fails only on a value that is of none of the
    kinds it knows and that [json.MarshalIndent] cannot encode, and it
    then returns the empty string.  For an attribute with key [k] and
    value [v], [Error] writes a space, [k], an equals sign and then the
    string [logString] returns for [v] when it succeeds, and [v]
    formatted with the verb [%v] when it fails.  [attrsToSlog] logs the
    attribute with [slog.Any] exactly when [logString] fails. *)
Theorem serr_logString_failure (msg : string) (attrs : list serr.Attributed)
    (attr : serr.Attr) :
  let v := serr.attr_value attr in
  ((serr.logString v).2 = false <->
     exists o, v = serr.VOther o /\
               serr.json_MarshalIndent (serr.VOther o) = None) /\
  ((serr.logString v).2 = false -> serr.logString v = (EmptyString, false)) /\
  serr.Error (serr.New msg (attrs ++ [serr.OfAttr attr])) =
    (serr.Error (serr.New msg attrs) ++ " " ++ serr.key attr ++ "=" ++
     (if (serr.logString v).2 then (serr.logString v).1
      else serr.fmt_v v))%string /\
  (serr.attrsToSlog (attrs ++ [serr.OfAttr attr]) =
     serr.attrsToSlog attrs ++ [serr.slog_Any (serr.key attr) v] <->
   (serr.logString v).2 = false).
Proof.
  cbv zeta. split; [| split; [| split]].
  - destruct (serr.attr_value attr) as [s | n | n | u | t | m | o | o];
      cbn [serr.logString];
      try (split; [discriminate | intros (o' & E & _); discriminate E]).
    destruct (serr.json_MarshalIndent (serr.VOther o)) as [b |] eqn:E;
      cbn [snd].
    + split; [discriminate | intros (o' & E1 & E2)].
      injection E1 as <-. rewrite E in E2. discriminate E2.
    + split; [intros _; now exists o | reflexivity].
  - destruct (serr.attr_value attr) as [s | n | n | u | t | m | o | o];
      cbn [serr.logString]; try discriminate.
    now destruct (serr.json_MarshalIndent (serr.VOther o)).
  - cbn [serr.New serr.Error]. rewrite write_attrs_snoc.
    unfold serr.write_attr. cbv zeta.
    destruct (serr.logString (serr.attr_value attr)) as [logstr [|]];
      cbn [fst snd]; now rewrite !string_app_assoc.
  - rewrite attrsToSlog_snoc, <- attrToSlog_Any. split.
    + intros E. apply app_inv_head in E. now injection E.
    + now intros ->.
Qed.

(** ** ToGRPC *)

Section ToGRPC.
Variable uuid_IsInvalidLengthError : serr.error -> bool.

Lemma errors_Is_in_tree (err inner : serr.error) (target : serr.Ext) :
  serr.in_tree err inner ->
  serr.errors_Is inner target = true ->
  serr.errors_Is err target = true.
Proof.
  induction 1 as [err | err child inner Hchild _ IH]; [trivial |].
  intros E. specialize (IH E).
  destruct err as [e | msg attrs | msg err attrs | msg errs attrs];
    simpl in Hchild.
  - destruct Hchild.
  - destruct Hchild.
  - destruct Hchild as [-> | []]. exact IH.
  - simpl. apply existsb_exists. now exists child.
Qed.

Lemma errors_As_in_tree (err inner : serr.error) :
  serr.in_tree err inner ->
  serr.errors_As_SyntaxError inner = true ->
  serr.errors_As_SyntaxError err = true.
Proof.
  induction 1 as [err | err child inner Hchild _ IH]; [trivial |].
  intros E. specialize (IH E).
  destruct err as [e | msg attrs | msg err attrs | msg errs attrs];
    simpl in Hchild.
  - destruct Hchild.
  - destruct Hchild.
  - destruct Hchild as [-> | []]. exact IH.
  - simpl. apply existsb_exists. now exists child.
Qed.

Lemma ToGRPC_message (err : serr.error) :
  (serr.ToGRPC uuid_IsInvalidLengthError err).2 = serr.Error err.
Proof.
  unfold serr.ToGRPC. cbv zeta.
  repeat (match goal with |- context [if ?b then _ else _] => destruct b end);
    reflexivity.
Qed.

(** X25.  [ToGRPC] sees a permission error, a no-rows error and a JSON
    syntax error at any depth below [Wrap] and [WrapMulti]: an error
    with [ErrNotPermitted] anywhere in its tree is [Unauthenticated],
    whatever else the tree holds; one with [sql.ErrNoRows] and no
    [ErrNotPermitted] is [NotFound]; one with a JSON syntax error is
    never [Internal].  The status message is always the full [Error]
    string of the error passed in. *)
Theorem serr_ToGRPC_through_wrapping (err inner : serr.error) :
  serr.in_tree err inner ->
  (serr.ToGRPC uuid_IsInvalidLengthError err).2 = serr.Error err /\
  (serr.errors_Is inner serr.ErrNotPermitted = true ->
     serr.ToGRPC uuid_IsInvalidLengthError err =
       (serr.Unauthenticated, serr.Error err)) /\
  (serr.errors_Is inner serr.sql_ErrNoRows = true ->
     serr.errors_Is err serr.ErrNotPermitted = false ->
     serr.ToGRPC uuid_IsInvalidLengthError err =
       (serr.NotFound, serr.Error err)) /\
  (serr.errors_As_SyntaxError inner = true ->
     (serr.ToGRPC uuid_IsInvalidLengthError err).1 <> serr.Internal).
Proof.
  intros Htree. split; [apply ToGRPC_message |]. split; [| split].
  - intros E. unfold serr.ToGRPC. cbv zeta.
    now rewrite (errors_Is_in_tree _ _ _ Htree E).
  - intros E N. unfold serr.ToGRPC. cbv zeta.
    now rewrite N, (errors_Is_in_tree _ _ _ Htree E).
  - intros E. unfold serr.ToGRPC. cbv zeta.
    rewrite (errors_As_in_tree _ _ Htree E).
    repeat (match goal with |- context [if ?b then _ else _] => destruct b end);
      discriminate.
Qed.

Lemma string_neq_by_length (a b : string) :
  String.length a <> String.length b -> String.eqb a b = false.
Proof. intros N. apply String.eqb_neq. intros ->. now destruct N. Qed.

(** X26.  An error whose message is exactly [invalid UUID format], and
    that is neither a permission nor a no-rows error, is
    [InvalidArgument].  The comparison is made on the whole [Error]
    string: the same error wrapped by [Wrap] with a message is
    [Internal], unless one of the other checks applies to it. *)
Theorem serr_ToGRPC_format_check (e : serr.error) (msg : string)
    (attrs : list serr.Attributed) :
  serr.Error e = "invalid UUID format"%string ->
  serr.errors_Is e serr.ErrNotPermitted = false ->
  serr.errors_Is e serr.sql_ErrNoRows = false ->
  serr.ToGRPC uuid_IsInvalidLengthError e =
    (serr.InvalidArgument, "invalid UUID format"%string) /\
  (msg <> EmptyString ->
   serr.errors_As_SyntaxError e = false ->
   uuid_IsInvalidLengthError (serr.Wrap msg e attrs) = false ->
   serr.ToGRPC uuid_IsInvalidLengthError (serr.Wrap msg e attrs) =
     (serr.Internal, serr.Error (serr.Wrap msg e attrs))).
Proof.
  intros Hmsg N1 N2. split.
  - unfold serr.ToGRPC. cbv zeta. rewrite N1, N2, Hmsg.
    now destruct (uuid_IsInvalidLengthError e).
  - intros Hne N3 N4. unfold serr.Wrap in *. unfold serr.ToGRPC. cbv zeta.
    cbn [serr.errors_Is serr.errors_As_SyntaxError].
    rewrite N1, N2, N3, N4.
    rewrite string_neq_by_length; [reflexivity |].
    cbn [serr.Error]. unfold serr.wrapped_message.
    apply String.eqb_neq in Hne. rewrite Hne, Hmsg.
    pose proof (write_attrs_length
                  (msg ++ ": " ++ "invalid UUID format")%string attrs) as L.
    rewrite !string_length_app in L. simpl in L. simpl. lia.
Qed.

End ToGRPC.

End SerrProperties.

Lemma serr_ToGRPC_through_wrapping_witness :
  let denied := @serr.External serr_samples.sentinels "not permitted"%string in
  let missing :=
    @serr.External serr_samples.sentinels "sql: no rows in result set"%string in
  let err := @serr.WrapMulti serr_samples.sentinels "load"
               [serr.Wrap "query" missing []; denied]
               [serr.OfAttr (serr.String "user" "u1")] in
  @serr.ToGRPC serr_samples.sentinels serr_samples.no_printers
    serr_samples.not_a_length_error err =
  (serr.Unauthenticated,
   "load: query: sql: no rows in result set/not permitted user=u1"%string).
Proof.
  cbv zeta.
  refine (proj1 (proj2 (@serr_ToGRPC_through_wrapping serr_samples.sentinels
                   serr_samples.no_printers serr_samples.not_a_length_error
                   _ (@serr.External serr_samples.sentinels
                        "not permitted"%string) _)) eq_refl).
  eapply serr.in_tree_unwrap; [right; left; reflexivity |].
  apply serr.in_tree_self.
Defined.

Lemma serr_ToGRPC_format_check_witness :
  let e := @serr.External serr_samples.sentinels "invalid UUID format"%string in
  @serr.ToGRPC serr_samples.sentinels serr_samples.no_printers
    serr_samples.not_a_length_error e =
    (serr.InvalidArgument, "invalid UUID format"%string) /\
  @serr.ToGRPC serr_samples.sentinels serr_samples.no_printers
    serr_samples.not_a_length_error (serr.Wrap "parse id" e []) =
    (serr.Internal, "parse id: invalid UUID format"%string).
Proof.
  cbv zeta.
  pose proof (@serr_ToGRPC_format_check serr_samples.sentinels
                serr_samples.no_printers serr_samples.not_a_length_error
                (@serr.External serr_samples.sentinels
                   "invalid UUID format"%string) "parse id"%string []
                eq_refl eq_refl eq_refl) as [H1 H2].
  split; [exact H1 |].
  apply H2; [discriminate | reflexivity | reflexivity].
Defined.

(** Cases of the tests of package serr: attributes, wrapped errors and
    unwrapping. *)
Example serr_TestErrorAttributes :
  @serr.Error serr_samples.sentinels serr_samples.no_printers
    (serr.New "msg" [serr.OfAttr (serr.String "a" "1");
                     serr.OfAttr (serr.String "b" "2")]) =
  "msg a=1 b=2"%string.
Proof. reflexivity. Qed.

Example serr_TestWrappedErrors :
  let malheur := @serr.External serr_samples.sentinels "malheur"%string in
  let catastrophe := @serr.External serr_samples.sentinels "catastrophe"%string in
  let attrs := [serr.OfAttr (serr.String "a" "1");
                serr.OfAttr (serr.String "b" "2")] in
  @serr.Error serr_samples.sentinels serr_samples.no_printers
    (serr.Wrap "msg" malheur attrs) = "msg: malheur a=1 b=2"%string /\
  @serr.Error serr_samples.sentinels serr_samples.no_printers
    (serr.WrapMulti "msg" [malheur; catastrophe] attrs) =
    "msg: malheur/catastrophe a=1 b=2"%string /\
  @serr.Error serr_samples.sentinels serr_samples.no_printers
    (serr.Wrap "" malheur attrs) = "malheur a=1 b=2"%string /\
  @serr.errors_Is serr_samples.sentinels (serr.Wrap "" malheur attrs)
    "malheur"%string = true.
Proof. cbv zeta. repeat split; reflexivity. Qed.

(** An [Attributed] with two attributes of its own, as in
    [TestAttributed] without the UUID. *)
Example serr_Attributed_group :
  @serr.Error serr_samples.sentinels serr_samples.no_printers
    (serr.New "dummy error"
       [serr.OfAttr (serr.String "attr" "abcd");
        serr.Custom [serr.Int "num" 1234; serr.Uint "wheels" 3]]) =
  "dummy error attr=abcd num=1234 wheels=3"%string.
Proof. reflexivity. Qed.
